(** * AuthContext.tsx: the session and caption state provider

    A shallow embedding of [src/frontendjm/src/contexts/AuthContext.tsx]
    (the [AuthProvider] component) and the properties of its operations.

    - JavaScript strings are sequences of UTF-16 code units ([list N]).
    - The React state cells ([useState]) are the fields of one record; a
      setter call is applied to that record in program order, which is what
      React's update queue computes for constant and functional updates.
    - What a closure captured at render time ([isListening] and the
      [recognition] object built by that render) is stored with the
      recogniser the render built.
    - The browser ([localStorage], [JSON], [Date.now], the speech
      recogniser) and the auth API client are the environment: the store
      is a finite map, the others are section variables. *)

From Stdlib Require Import ZArith NArith List Ascii String DecimalString.
From stdpp Require Import base option list gmap.

Set Default Proof Using "Type".
Set Warnings "-register-all".
Open Scope list_scope.

(** ** JavaScript strings *)

Module JS.

(** A string is its sequence of UTF-16 code units. *)
Abbreviation jsstring := (list N).

(** An ASCII literal of the source as a JavaScript string. *)
Definition lit (s : string) : jsstring :=
  map N_of_ascii (list_ascii_of_string s).

(** ECMAScript WhiteSpace and LineTerminator code points, the characters
    [String.prototype.trim] strips (all are in the basic plane). *)
Definition is_white (c : N) : bool :=
  ((9 <=? c) && (c <=? 13) || (c =? 32) || (c =? 160) || (c =? 5760)
   || (8192 <=? c) && (c <=? 8202) || (c =? 8232) || (c =? 8233)
   || (c =? 8239) || (c =? 8287) || (c =? 12288) || (c =? 65279))%N.

Fixpoint trimStart (s : jsstring) : jsstring :=
  match s with
  | c :: s' => if is_white c then trimStart s' else s
  | [] => []
  end.

Definition trimEnd (s : jsstring) : jsstring := rev (trimStart (rev s)).

(** [s.trim()] *)
Definition trim (s : jsstring) : jsstring := trimEnd (trimStart s).

(** ToBoolean on a string: only the empty string is falsy. *)
Definition truthy (s : jsstring) : bool :=
  match s with [] => false | _ :: _ => true end.

(** ToBoolean on [string | null]. *)
Definition truthy_opt (o : option jsstring) : bool :=
  match o with Some s => truthy s | None => false end.

(** [n.toString()] for an integral number below 1e21 in magnitude (every
    time value is): the decimal digits, with a sign when negative. *)
Definition toString (n : Z) : jsstring :=
  lit (NilZero.string_of_int (Z.to_int n)).

(** A string is blank when every code unit of it is white space. *)
Definition blank (s : jsstring) : bool := forallb is_white s.

End JS.
Import JS.

(** ** Data model *)

(** [CaptionStyle.fontSize] *)
Inductive FontSize := small | medium | large.

Record CaptionStyle := { fontSize : FontSize; color : jsstring }.

(** [Partial<CaptionStyle>]: each key is absent or carries a value. *)
Record PartialCaptionStyle :=
  { fontSize_opt : option FontSize; color_opt : option jsstring }.

Record TranscriptEntry := { id : jsstring; text : jsstring }.

Record RegisterData :=
  { firstName : jsstring; lastName : jsstring;
    email : jsstring; password : jsstring }.

(** One [SpeechRecognitionResult]: its finality and [result[0].transcript],
    the transcript of its best alternative (a result always has one). *)
Record SpeechRecognitionResult := { isFinal : bool; best : jsstring }.

Record SpeechRecognitionEvent :=
  { resultIndex : nat; results : list SpeechRecognitionResult }.

(** What the provider shows to the user or the developer. *)
Inductive Effect :=
| Alert (message : jsstring)
| ConsoleError (message : jsstring).

(** A recogniser object of the browser. [start()] on an object that is not
    idle throws; [stop()] lets a started session run to its end event. *)
Inductive Status := Idle | Started | Stopping.

(** The recogniser a render builds, with the value of [isListening] that
    its [onend] handler closed over. *)
Record Recognizer := { closure_isListening : bool; status : Status }.

(** The messages and keys of the source. *)
Definition key_token : jsstring := lit "token".
Definition key_user : jsstring := lit "user".
Definition msg_unsupported : jsstring :=
  lit "Speech recognition is not supported in this browser".
Definition msg_denied : jsstring :=
  lit "Microphone access denied. Please allow microphone access to use speech recognition.".
Definition msg_recognition_error : jsstring := lit "Speech recognition error".
Definition msg_parse_error : jsstring := lit "Error parsing stored user data:".

(** ** The provider *)

Section Provider.

(** Values that [JSON.parse] returns and the auth service sends as the
    user ([any] at run time), with JavaScript's [null]. *)
Context {JSValue : Type}.
Variable js_null : JSValue.

(** [JSON.parse]; [None] when it throws. *)
Variable JSON_parse : jsstring -> option JSValue.
(** [JSON.stringify], as the string [localStorage.setItem] stores. *)
Variable JSON_stringify : JSValue -> jsstring.

(** The auth API client of [../services/api]: a call is rejected with an
    error or resolves to a response whose [data] holds a token and a user. *)
Context {AuthError : Type}.
Variable authService_login :
  jsstring -> jsstring -> AuthError + (jsstring * JSValue).
Variable authService_register :
  RegisterData -> AuthError + (jsstring * JSValue).

(** [Date_now k] is what the [k]-th call of [Date.now()] returns. *)
Variable Date_now : nat -> Z.

(** Whether [window.SpeechRecognition || window.webkitSpeechRecognition]
    is defined. *)
Variable SpeechRecognition_available : bool.

(** The six [useState] cells. *)
Record State := {
  user : JSValue;
  token : option jsstring;
  transcript : jsstring;
  transcriptHistory : list TranscriptEntry;
  isListening : bool;
  captionStyle : CaptionStyle }.

(** The provider in its browser: the state cells, the persistent store,
    the number of clock readings taken, every recogniser built so far
    (one per render when the capability exists), the [recognition]
    binding of the latest render ([null] or a recogniser), and what was
    reported. *)
Record World := {
  state : State;
  localStorage : gmap jsstring jsstring;
  reads : nat;
  recognizers : list Recognizer;
  recognition : option nat;
  effects : list Effect }.

(** *** Setters *)

Definition setUser (v : JSValue) (s : State) : State :=
  {| user := v; token := token s; transcript := transcript s;
     transcriptHistory := transcriptHistory s;
     isListening := isListening s; captionStyle := captionStyle s |}.

Definition setToken (v : option jsstring) (s : State) : State :=
  {| user := user s; token := v; transcript := transcript s;
     transcriptHistory := transcriptHistory s;
     isListening := isListening s; captionStyle := captionStyle s |}.

Definition setTranscript (v : jsstring) (s : State) : State :=
  {| user := user s; token := token s; transcript := v;
     transcriptHistory := transcriptHistory s;
     isListening := isListening s; captionStyle := captionStyle s |}.

(** The functional form, [setTranscriptHistory(prev => f prev)]. *)
Definition setTranscriptHistory
    (f : list TranscriptEntry -> list TranscriptEntry) (s : State) : State :=
  {| user := user s; token := token s; transcript := transcript s;
     transcriptHistory := f (transcriptHistory s);
     isListening := isListening s; captionStyle := captionStyle s |}.

Definition setIsListening (v : bool) (s : State) : State :=
  {| user := user s; token := token s; transcript := transcript s;
     transcriptHistory := transcriptHistory s;
     isListening := v; captionStyle := captionStyle s |}.

(** The functional form, [setCaptionStyle(prev => f prev)]. *)
Definition setCaptionStyle
    (f : CaptionStyle -> CaptionStyle) (s : State) : State :=
  {| user := user s; token := token s; transcript := transcript s;
     transcriptHistory := transcriptHistory s;
     isListening := isListening s; captionStyle := f (captionStyle s) |}.

Definition update (f : State -> State) (w : World) : World :=
  {| state := f (state w); localStorage := localStorage w;
     reads := reads w; recognizers := recognizers w;
     recognition := recognition w; effects := effects w |}.

Definition with_storage
    (f : gmap jsstring jsstring -> gmap jsstring jsstring) (w : World) : World :=
  {| state := state w; localStorage := f (localStorage w);
     reads := reads w; recognizers := recognizers w;
     recognition := recognition w; effects := effects w |}.

(** [localStorage.setItem(k, v)] and [localStorage.removeItem(k)]. *)
Definition setItem (k v : jsstring) : World -> World :=
  with_storage (insert k v).
Definition removeItem (k : jsstring) : World -> World :=
  with_storage (delete k).
Definition getItem (k : jsstring) (w : World) : option jsstring :=
  localStorage w !! k.

(** [alert(..)] and [console.error(..)]. *)
Definition report (e : Effect) (w : World) : World :=
  {| state := state w; localStorage := localStorage w;
     reads := reads w; recognizers := recognizers w;
     recognition := recognition w; effects := effects w ++ [e] |}.

(** A call of [Date.now()]. *)
Definition now (w : World) : Z := Date_now (reads w).
Definition tick (w : World) : World :=
  {| state := state w; localStorage := localStorage w;
     reads := S (reads w); recognizers := recognizers w;
     recognition := recognition w; effects := effects w |}.

Definition with_recognizers
    (f : list Recognizer -> list Recognizer) (w : World) : World :=
  {| state := state w; localStorage := localStorage w;
     reads := reads w; recognizers := f (recognizers w);
     recognition := recognition w; effects := effects w |}.

Definition set_status (i : nat) (st : Status) : World -> World :=
  with_recognizers (alter (fun r =>
    {| closure_isListening := closure_isListening r; status := st |}) i).

Definition status_of (i : nat) (w : World) : option Status :=
  status <$> recognizers w !! i.

(** *** The recogniser's methods *)

(** [recognition.start()]; [None] when it throws [InvalidStateError]. *)
Definition rec_start (i : nat) (w : World) : option World :=
  match status_of i w with
  | Some Idle => Some (set_status i Started w)
  | _ => None
  end.

(** [recognition.stop()] *)
Definition rec_stop (i : nat) (w : World) : World :=
  match status_of i w with
  | Some Started => set_status i Stopping w
  | _ => w
  end.

(** *** Live captions *)

(** The outcome of a call that can throw after it changed the state. *)
Inductive Completion :=
| Normal (w : World)
| Throw (w : World).

Definition world_of (c : Completion) : World :=
  match c with Normal w | Throw w => w end.

Definition addToHistory (text : jsstring) (w : World) : World :=
  if negb (truthy (trim text)) then w
  else
    let newEntry := {| id := toString (now w); text := text |} in
    update (setTranscriptHistory (fun prev => take 50 (newEntry :: prev)))
           (tick w).

Definition clearHistory (w : World) : World :=
  update (setTranscriptHistory (fun _ => [])) w.

(** [{ ...prev, ...style }] *)
Definition merge (prev : CaptionStyle) (style : PartialCaptionStyle)
  : CaptionStyle :=
  {| fontSize := default (fontSize prev) (fontSize_opt style);
     color := default (color prev) (color_opt style) |}.

Definition updateCaptionStyle (style : PartialCaptionStyle) (w : World)
  : World :=
  update (setCaptionStyle (fun prev => merge prev style)) w.

Definition startListening (w : World) : Completion :=
  match recognition w with
  | None => Normal (report (Alert msg_unsupported) w)
  | Some i =>
      let w1 := update (setTranscript []) (update (setIsListening true) w) in
      match rec_start i w1 with
      | Some w2 => Normal w2
      | None => Throw w1
      end
  end.

Definition stopListening (w : World) : World :=
  match recognition w with
  | None => w
  | Some i => rec_stop i (update (setIsListening false) w)
  end.

(** The body of the [for] loop of [recognition.onresult], over the
    results from [event.resultIndex] on. *)
Fixpoint onresult_loop (rs : list SpeechRecognitionResult)
    (currentTranscript : jsstring) (w : World) : jsstring * World :=
  match rs with
  | [] => (currentTranscript, w)
  | result :: rs' =>
      let w' := if isFinal result then addToHistory (best result) w else w in
      onresult_loop rs' (currentTranscript ++ best result) w'
  end.

Definition onresult (event : SpeechRecognitionEvent) (w : World) : World :=
  let '(currentTranscript, w') :=
    onresult_loop (drop (resultIndex event) (results event)) [] w in
  update (setTranscript currentTranscript) w'.

(** [recognition.onerror], on [event.error]. *)
Definition onerror (error : jsstring) (w : World) : World :=
  let w1 := report (ConsoleError msg_recognition_error) w in
  if bool_decide (error = lit "not-allowed")
  then report (Alert msg_denied) w1
  else w1.

(** [recognition.onend] of recogniser [i]: the handler reads the
    [isListening] and the [recognition] of the render that built [i]. *)
Definition onend (i : nat) (w : World) : Completion :=
  match recognizers w !! i with
  | Some r =>
      if closure_isListening r then
        match rec_start i w with
        | Some w' => Normal w'
        | None => Throw w
        end
      else Normal w
  | None => Normal w
  end.

(** *** Auth session *)

(** [isAuthenticated: !!token] *)
Definition isAuthenticated (s : State) : bool := truthy_opt (token s).

(** The second [useEffect]: hydration from the persistent store. *)
Definition hydrate (w : World) : World :=
  let storedToken := getItem key_token w in
  let storedUser := getItem key_user w in
  match storedToken, storedUser with
  | Some t, Some u =>
      if truthy t && truthy u && negb (bool_decide (u = lit "undefined"))
      then
        let w1 := update (setToken (Some t)) w in
        match JSON_parse u with
        | Some v => update (setUser v) w1
        | None =>
            removeItem key_user
              (removeItem key_token (report (ConsoleError msg_parse_error) w1))
        end
      else w
  | _, _ => w
  end.

(** The continuation of [login] and [register] after the [await]. *)
Definition install (newToken : jsstring) (userData : JSValue) (w : World)
  : World :=
  setItem key_user (JSON_stringify userData)
    (setItem key_token newToken
      (update (setUser userData) (update (setToken (Some newToken)) w))).

(** [login]: [inl error] when the returned promise is rejected with
    [error], [inr w'] when it resolves. *)
Definition login (email password : jsstring) (w : World)
  : AuthError + World :=
  match authService_login email password with
  | inl error => inl error
  | inr (newToken, userData) => inr (install newToken userData w)
  end.

Definition register (userData : RegisterData) (w : World)
  : AuthError + World :=
  match authService_register userData with
  | inl error => inl error
  | inr (newToken, newUser) => inr (install newToken newUser w)
  end.

Definition logout (w : World) : World :=
  removeItem key_user
    (removeItem key_token
      (update (setToken None) (update (setUser js_null) w))).

(** *** Renders and the life of the provider *)

(** A render: the body of [AuthProvider] builds a new recogniser when the
    capability exists and binds [recognition] to it; its handlers close
    over the current [isListening]. *)
Definition render (w : World) : World :=
  if SpeechRecognition_available then
    {| state := state w; localStorage := localStorage w; reads := reads w;
       recognizers := recognizers w ++
         [{| closure_isListening := isListening (state w); status := Idle |}];
       recognition := Some (length (recognizers w));
       effects := effects w |}
  else
    {| state := state w; localStorage := localStorage w; reads := reads w;
       recognizers := recognizers w; recognition := None;
       effects := effects w |}.

(** The initial values of the [useState] cells. *)
Definition initialState : State :=
  {| user := js_null; token := None; transcript := [];
     transcriptHistory := []; isListening := false;
     captionStyle := {| fontSize := medium; color := lit "white" |} |}.

(** Mounting in a browser whose store is [store]: the first render, then
    the effects. *)
Definition mount (store : gmap jsstring jsstring) : World :=
  hydrate (render
    {| state := initialState; localStorage := store; reads := 0;
       recognizers := []; recognition := None; effects := [] |}).

(** What can happen to a mounted provider: a render, a call of an
    operation through the context value of the latest render, or an event
    of a recogniser with a session in progress. (Unmounting ends the life
    of the provider.) *)
Inductive Action :=
| Render
| StartListening
| StopListening
| ClearHistory
| UpdateCaptionStyle (style : PartialCaptionStyle)
| Login (email password : jsstring)
| Register (userData : RegisterData)
| Logout
| ResultEvent (i : nat) (event : SpeechRecognitionEvent)
| ErrorEvent (i : nat) (error : jsstring)
| EndEvent (i : nat).

Definition in_session (i : nat) (w : World) : bool :=
  match status_of i w with
  | Some Started | Some Stopping => true
  | _ => false
  end.

Definition run (a : Action) (w : World) : World :=
  match a with
  | Render => render w
  | StartListening => world_of (startListening w)
  | StopListening => stopListening w
  | ClearHistory => clearHistory w
  | UpdateCaptionStyle style => updateCaptionStyle style w
  | Login e p => match login e p w with inr w' => w' | inl _ => w end
  | Register d => match register d w with inr w' => w' | inl _ => w end
  | Logout => logout w
  | ResultEvent i event => if in_session i w then onresult event w else w
  | ErrorEvent i error => if in_session i w then onerror error w else w
  | EndEvent i =>
      if in_session i w then world_of (onend i (set_status i Idle w)) else w
  end.

Definition exec (acts : list Action) (w : World) : World :=
  fold_left (fun w a => run a w) acts w.

(** [addToHistory] on each text in turn. *)
Definition appendAll (texts : list jsstring) (w : World) : World :=
  fold_left (fun w t => addToHistory t w) texts w.

(** The entries that texts appended in turn give, oldest first, when the
    first of them takes clock reading [k]. *)
Fixpoint stamped (k : nat) (texts : list jsstring) : list TranscriptEntry :=
  match texts with
  | [] => []
  | t :: ts => {| id := toString (Date_now k); text := t |} :: stamped (S k) ts
  end.

(** *** Unmounting *)

(** The cleanup that both effects return. Their dependency list is empty,
    so it is the closure of the first render: its [recognition] is the
    recogniser that render built (the first one, when the capability
    exists) and its [isListening] is the one that recogniser's handlers
    captured too. *)
Definition cleanup (w : World) : World :=
  match recognizers w !! 0 with
  | Some r => if closure_isListening r then rec_stop 0 w else w
  | None => w
  end.

(** The test of the hydration effect, on the store it read: only when it
    holds does the second effect return its cleanup. *)
Definition hydration_guard (store : gmap jsstring jsstring) : bool :=
  truthy_opt (store !! key_token) && truthy_opt (store !! key_user)
  && negb (bool_decide (store !! key_user = Some (lit "undefined"))).

(** Unmounting a provider that was mounted on [store]: the cleanups of the
    effects, in the order of the effects. *)
Definition unmount (store : gmap jsstring jsstring) (w : World) : World :=
  if hydration_guard store then cleanup (cleanup w) else cleanup w.

(** *** The texts that reach the history *)

(** The texts that a result event hands to [addToHistory] and that pass its
    test, in the order of the loop: the best transcripts, as the event
    carries them, of the final results from [resultIndex] on that are not
    all white space. *)
Definition accepted_of (event : SpeechRecognitionEvent) : list jsstring :=
  filter (fun t => blank t = false)
    (map best (filter (fun r => isFinal r = true)
                 (drop (resultIndex event) (results event)))).

(** The same over a run of actions from [w], in the order of the run: a
    result event counts when its recogniser has a session in progress. *)
Fixpoint accepted (acts : list Action) (w : World) : list jsstring :=
  match acts with
  | [] => []
  | a :: acts' =>
      match a with
      | ResultEvent i event => if in_session i w then accepted_of event else []
      | _ => []
      end ++ accepted acts' (run a w)
  end.

(** *** Invariants *)

(** An entry made from text that is not all white space, with the [j]-th
    clock reading as its id, for a [j] below [k]. *)
Definition entry_ok (k : nat) (e : TranscriptEntry) : Prop :=
  blank (text e) = false /\
  exists j, j < k /\ id e = toString (Date_now j).

(** Every entry of the history was made by [addToHistory] at one of the
    clock readings taken so far, and the history is within its cap. *)
Definition history_ok (w : World) : Prop :=
  Forall (entry_ok (reads w)) (transcriptHistory (state w)) /\
  length (transcriptHistory (state w)) <= 50.

(** No recogniser was ever built and the provider is not listening. *)
Definition quiet (w : World) : Prop :=
  recognizers w = [] /\ recognition w = None /\
  isListening (state w) = false.

End Provider.

(** ** A browser to run the provider in

    A concrete environment for the examples: JSON values with a parser for
    the JSON grammar and a serialiser, two auth services and two clocks.
    Numbers are kept as they are written (not rounded to a double), and an
    object keeps its members in the order and number they are written. *)

Module Browser.

Inductive json :=
| JNull
| JBool (b : bool)
| JNumber (lexeme : jsstring)
| JString (s : jsstring)
| JArray (elements : list json)
| JObject (members : list (jsstring * json)).

(** *** Lexing *)

Definition is_space (c : N) : bool :=
  ((c =? 32) || (c =? 9) || (c =? 10) || (c =? 13))%N.

Fixpoint skip_ws (s : jsstring) : jsstring :=
  match s with
  | c :: r => if is_space c then skip_ws r else s
  | [] => []
  end.

Definition is_digit (c : N) : bool := ((48 <=? c) && (c <=? 57))%N.

Fixpoint span_digits (s : jsstring) : jsstring * jsstring :=
  match s with
  | c :: r =>
      if is_digit c then let '(d, t) := span_digits r in (c :: d, t)
      else ([], s)
  | [] => ([], [])
  end.

Fixpoint strip_prefix (p s : jsstring) : option jsstring :=
  match p, s with
  | [], _ => Some s
  | a :: p', b :: s' => if (a =? b)%N then strip_prefix p' s' else None
  | _ :: _, [] => None
  end.

Definition lex_int (s : jsstring) : option (jsstring * jsstring) :=
  match s with
  | c :: r =>
      if (c =? 48)%N then Some ([c], r)
      else if is_digit c then let '(d, t) := span_digits r in Some (c :: d, t)
      else None
  | [] => None
  end.

Definition lex_frac (s : jsstring) : option (jsstring * jsstring) :=
  match s with
  | c :: r =>
      if (c =? 46)%N then
        match span_digits r with
        | ([], _) => None
        | (d, t) => Some (c :: d, t)
        end
      else Some ([], s)
  | [] => Some ([], s)
  end.

Definition lex_sign (s : jsstring) : jsstring * jsstring :=
  match s with
  | c :: r => if ((c =? 43) || (c =? 45))%N then ([c], r) else ([], s)
  | [] => ([], s)
  end.

Definition lex_exp (s : jsstring) : option (jsstring * jsstring) :=
  match s with
  | c :: r =>
      if ((c =? 101) || (c =? 69))%N then
        let '(sg, r1) := lex_sign r in
        match span_digits r1 with
        | ([], _) => None
        | (d, t) => Some (c :: sg ++ d, t)
        end
      else Some ([], s)
  | [] => Some ([], s)
  end.

Definition lex_number (s : jsstring) : option (jsstring * jsstring) :=
  let '(sg, r) :=
    match s with
    | c :: r => if (c =? 45)%N then ([c], r) else ([], s)
    | [] => ([], s)
    end in
  '(i, r1) ← lex_int r;
  '(f, r2) ← lex_frac r1;
  '(e, r3) ← lex_exp r2;
  Some (sg ++ i ++ f ++ e, r3).

Definition hex_val (c : N) : option N :=
  if is_digit c then Some (c - 48)%N
  else if ((65 <=? c) && (c <=? 70))%N then Some (c - 55)%N
  else if ((97 <=? c) && (c <=? 102))%N then Some (c - 87)%N
  else None.

(** The character a one-letter escape stands for. *)
Definition unescape (c : N) : option N :=
  if ((c =? 34) || (c =? 92) || (c =? 47))%N then Some c
  else if (c =? 98)%N then Some 8%N
  else if (c =? 102)%N then Some 12%N
  else if (c =? 110)%N then Some 10%N
  else if (c =? 114)%N then Some 13%N
  else if (c =? 116)%N then Some 9%N
  else None.

Definition hex4 (a b c d : N) : option N :=
  x ← hex_val a; y ← hex_val b; z ← hex_val c; w ← hex_val d;
  Some (4096 * x + 256 * y + 16 * z + w)%N.

(** The rest of a string literal, after its opening quote. *)
Fixpoint lex_string (s acc : jsstring) : option (jsstring * jsstring) :=
  match s with
  | [] => None
  | c :: r =>
      if (c =? 34)%N then Some (rev acc, r)
      else if (c =? 92)%N then
        match r with
        | e :: r' =>
            if (e =? 117)%N then
              match r' with
              | a :: b :: c' :: d :: r'' =>
                  match hex4 a b c' d with
                  | Some u => lex_string r'' (u :: acc)
                  | None => None
                  end
              | _ => None
              end
            else
              match unescape e with
              | Some u => lex_string r' (u :: acc)
              | None => None
              end
        | [] => None
        end
      else if (c <? 32)%N then None
      else lex_string r (c :: acc)
  end.

(** *** Parsing *)

Fixpoint parse_value (fuel : nat) (s : jsstring) : option (json * jsstring) :=
  match fuel with
  | O => None
  | S fuel' =>
      match skip_ws s with
      | [] => None
      | c :: r =>
          if (c =? 110)%N then r' ← strip_prefix (lit "ull") r; Some (JNull, r')
          else if (c =? 116)%N then
            r' ← strip_prefix (lit "rue") r; Some (JBool true, r')
          else if (c =? 102)%N then
            r' ← strip_prefix (lit "alse") r; Some (JBool false, r')
          else if (c =? 34)%N then
            '(str, r') ← lex_string r []; Some (JString str, r')
          else if (c =? 91)%N then
            match skip_ws r with
            | d :: r' =>
                if (d =? 93)%N then Some (JArray [], r')
                else parse_elements fuel' r []
            | [] => None
            end
          else if (c =? 123)%N then
            match skip_ws r with
            | d :: r' =>
                if (d =? 125)%N then Some (JObject [], r')
                else parse_members fuel' r []
            | [] => None
            end
          else '(l, r') ← lex_number (c :: r); Some (JNumber l, r')
      end
  end
with parse_elements (fuel : nat) (s : jsstring) (acc : list json)
  : option (json * jsstring) :=
  match fuel with
  | O => None
  | S fuel' =>
      '(v, r) ← parse_value fuel' s;
      match skip_ws r with
      | d :: r' =>
          if (d =? 44)%N then parse_elements fuel' r' (v :: acc)
          else if (d =? 93)%N then Some (JArray (rev (v :: acc)), r')
          else None
      | [] => None
      end
  end
with parse_members (fuel : nat) (s : jsstring) (acc : list (jsstring * json))
  : option (json * jsstring) :=
  match fuel with
  | O => None
  | S fuel' =>
      match skip_ws s with
      | q :: r0 =>
          if (q =? 34)%N then
            '(k, r1) ← lex_string r0 [];
            match skip_ws r1 with
            | colon :: r2 =>
                if (colon =? 58)%N then
                  '(v, r) ← parse_value fuel' r2;
                  match skip_ws r with
                  | d :: r' =>
                      if (d =? 44)%N then parse_members fuel' r' ((k, v) :: acc)
                      else if (d =? 125)%N
                      then Some (JObject (rev ((k, v) :: acc)), r')
                      else None
                  | [] => None
                  end
                else None
            | [] => None
            end
          else None
      | [] => None
      end
  end.

(** [JSON.parse]: one value, then nothing but white space. Every call
    above starts on a character of its own, so twice the length is fuel
    enough. *)
Definition parse (s : jsstring) : option json :=
  '(v, r) ← parse_value (2 * length s + 2) s;
  match skip_ws r with
  | [] => Some v
  | _ :: _ => None
  end.

(** *** Serialising *)

Definition hex_digit (n : N) : N := if (n <? 10)%N then (48 + n)%N else (87 + n)%N.

Definition escape_unit (c : N) : jsstring :=
  [92; 117; hex_digit (c / 4096); hex_digit (c / 256 mod 16);
   hex_digit (c / 16 mod 16); hex_digit (c mod 16)]%N.

Definition is_high (c : N) : bool := ((55296 <=? c) && (c <=? 56319))%N.
Definition is_low (c : N) : bool := ((56320 <=? c) && (c <=? 57343))%N.

Fixpoint quote_body (s : jsstring) : jsstring :=
  match s with
  | [] => []
  | c :: r =>
      if ((c =? 34) || (c =? 92))%N then 92%N :: c :: quote_body r
      else if (c =? 8)%N then 92%N :: 98%N :: quote_body r
      else if (c =? 12)%N then 92%N :: 102%N :: quote_body r
      else if (c =? 10)%N then 92%N :: 110%N :: quote_body r
      else if (c =? 13)%N then 92%N :: 114%N :: quote_body r
      else if (c =? 9)%N then 92%N :: 116%N :: quote_body r
      else if (c <? 32)%N then escape_unit c ++ quote_body r
      else if is_high c then
        match r with
        | d :: r' =>
            if is_low d then c :: d :: quote_body r'
            else escape_unit c ++ quote_body r
        | [] => escape_unit c
        end
      else if is_low c then escape_unit c ++ quote_body r
      else c :: quote_body r
  end.

Definition quote (s : jsstring) : jsstring := 34%N :: quote_body s ++ [34%N].

Fixpoint join (parts : list jsstring) : jsstring :=
  match parts with
  | [] => []
  | [p] => p
  | p :: ps => p ++ 44%N :: join ps
  end.

(** [JSON.stringify] *)
Fixpoint stringify (v : json) : jsstring :=
  match v with
  | JNull => lit "null"
  | JBool true => lit "true"
  | JBool false => lit "false"
  | JNumber l => l
  | JString s => quote s
  | JArray l => 91%N :: join (map stringify l) ++ [93%N]
  | JObject ms =>
      123%N :: join (map (fun m => match m with
                                   | (k, x) => quote k ++ 58%N :: stringify x
                                   end) ms) ++ [125%N]
  end.

(** *** Auth services and clocks *)

Definition ada : json :=
  JObject [(lit "id", JString (lit "u1"));
           (lit "email", JString (lit "ada@example.com"));
           (lit "firstName", JString (lit "Ada"));
           (lit "lastName", JString (lit "Lovelace"))].

(** A service with one account. *)
Definition one_account (email password : jsstring)
  : jsstring + (jsstring * json) :=
  if bool_decide (email = lit "ada@example.com")
     && bool_decide (password = lit "secret")
  then inr (lit "tok-1", ada)
  else inl (lit "Invalid credentials").

(** A service that answers every login with an empty token. *)
Definition empty_token (email password : jsstring)
  : jsstring + (jsstring * json) :=
  inr ([], ada).

Definition no_registration (userData : RegisterData)
  : jsstring + (jsstring * json) :=
  inl (lit "Registration closed").

(** A clock that advances by one millisecond per reading, and one that
    is read within a single millisecond. *)
Definition ticking (k : nat) : Z := 1700000000000 + Z.of_nat k.
Definition frozen (k : nat) : Z := 1700000000000.

End Browser.

(** * Properties *)

(** ** Facts about [trim] *)

Lemma trimStart_blank s : blank s = true -> trimStart s = [].
Proof.
  unfold blank. induction s as [|c s IH]; simpl; [done|].
  intros [Hc Hs]%andb_prop. rewrite Hc. auto.
Qed.

Lemma trimStart_nil_blank s : trimStart s = [] -> blank s = true.
Proof.
  unfold blank. induction s as [|c s IH]; simpl; [done|].
  destruct (is_white c); [auto | discriminate].
Qed.

Lemma trim_blank s : blank s = true -> trim s = [].
Proof.
  intros H. unfold trim, trimEnd. rewrite (trimStart_blank s H). reflexivity.
Qed.

Lemma trimStart_app_keep s c r :
  is_white c = false -> trimStart (s ++ c :: r) <> [].
Proof.
  intros Hc. induction s as [|d s IH]; simpl.
  - by rewrite Hc.
  - destruct (is_white d); [exact IH | discriminate].
Qed.

Lemma trim_nil_blank s : trim s = [] -> blank s = true.
Proof.
  unfold trim, trimEnd. intros H.
  destruct (trimStart s) as [|c r] eqn:E.
  - by apply trimStart_nil_blank.
  - exfalso.
    assert (Hc : is_white c = false).
    { destruct s as [|d s]; [discriminate|]. revert E.
      induction (d :: s) as [|e t IH]; simpl; [discriminate|].
      destruct (is_white e) eqn:He; [exact IH|]. intros [= -> _]. exact He. }
    apply (f_equal (@rev N)) in H. rewrite rev_involutive in H. simpl in H.
    apply (trimStart_app_keep (rev r) c [] Hc). exact H.
Qed.

(** The test of [addToHistory], [!text.trim()], holds exactly for blank text. *)
Lemma truthy_trim_blank s : truthy (trim s) = negb (blank s).
Proof.
  destruct (blank s) eqn:B.
  - by rewrite trim_blank.
  - destruct (trim s) eqn:E; [|done].
    apply trim_nil_blank in E. congruence.
Qed.

(** ** The provider's operations *)

Lemma key_token_neq_user : key_token <> key_user.
Proof. discriminate. Qed.

Lemma take_app_take {A} (n : nat) (l k : list A) :
  take n (l ++ take n k) = take n (l ++ k).
Proof.
  rewrite !take_app, take_take. f_equal. f_equal. lia.
Qed.

Section ProviderFacts.

Context {JSValue : Type} (js_null : JSValue).
Context (JSON_parse : jsstring -> option JSValue).
Context (JSON_stringify : JSValue -> jsstring).
Context {AuthError : Type}.
Context (authService_login :
           jsstring -> jsstring -> AuthError + (jsstring * JSValue)).
Context (authService_register :
           RegisterData -> AuthError + (jsstring * JSValue)).
Context (Date_now : nat -> Z).
Context (SpeechRecognition_available : bool).

Local Abbreviation World := (@World JSValue).
Local Abbreviation State := (@State JSValue).
Local Abbreviation mount_ := (mount js_null JSON_parse SpeechRecognition_available).
Local Abbreviation run_ :=
  (run js_null JSON_stringify authService_login authService_register
       Date_now SpeechRecognition_available).
Local Abbreviation exec_ :=
  (exec js_null JSON_stringify authService_login authService_register
        Date_now SpeechRecognition_available).
Local Abbreviation login_ := (login JSON_stringify authService_login).

(** *** Hydration *)

(** C1. When both keys are stored with non-empty values, the stored user
    is not the literal "undefined" and parsing it fails, hydration
    removes both keys and installs no user, but the token it installed
    before parsing stays in memory: [isAuthenticated] is true. *)
Theorem hydrate_parse_failure_keeps_token
    (store : gmap jsstring jsstring) (t u : jsstring) :
  store !! key_token = Some t ->
  store !! key_user = Some u ->
  truthy t = true ->
  truthy u = true ->
  u <> lit "undefined" ->
  JSON_parse u = None ->
  let w := mount_ store in
  token (state w) = Some t /\
  isAuthenticated (state w) = true /\
  user (state w) = js_null /\
  localStorage w !! key_token = None /\
  localStorage w !! key_user = None.
Proof.
  intros Ht Hu Tt Tu Hne Hp w. subst w.
  assert (E : hydrate JSON_parse
                (render SpeechRecognition_available
                   {| state := initialState js_null; localStorage := store;
                      reads := 0; recognizers := []; recognition := None;
                      effects := [] |})
              = removeItem key_user (removeItem key_token
                  (report (ConsoleError msg_parse_error)
                    (update (setToken (Some t))
                      (render SpeechRecognition_available
                        {| state := initialState js_null;
                           localStorage := store; reads := 0;
                           recognizers := []; recognition := None;
                           effects := [] |}))))).
  { unfold hydrate, getItem, render.
    destruct SpeechRecognition_available; simpl;
      rewrite Ht, Hu, Tt, Tu, Hp, (bool_decide_eq_false_2 _ Hne);
      reflexivity. }
  unfold mount. rewrite E. clear E.
  unfold isAuthenticated, render.
  destruct SpeechRecognition_available; simpl;
    (repeat split; [exact Tt | |]);
    [ rewrite lookup_delete_ne by (symmetry; exact key_token_neq_user);
      apply lookup_delete_eq
    | apply lookup_delete_eq
    | rewrite lookup_delete_ne by (symmetry; exact key_token_neq_user);
      apply lookup_delete_eq
    | apply lookup_delete_eq ].
Qed.

(** *** Login *)

(** C9. When the auth call resolves with token [t] and user [u], [login]
    resolves, the token and the user in memory are [t] and [u], and the
    store holds [t] under 'token' and the serialised [u] under 'user';
    when the auth call is rejected, [login] is rejected with the same
    error. *)
Theorem login_installs_session (email password : jsstring) (w : World) :
  (forall t u,
      authService_login email password = inr (t, u) ->
      exists w',
        login_ email password w = inr w' /\
        token (state w') = Some t /\
        user (state w') = u /\
        localStorage w' !! key_token = Some t /\
        localStorage w' !! key_user = Some (JSON_stringify u)) /\
  (forall error,
      authService_login email password = inl error ->
      login_ email password w = inl error).
Proof.
  split.
  - intros t u E. unfold login. rewrite E.
    eexists; split; [reflexivity|]. simpl. repeat split.
    + rewrite lookup_insert_ne by (symmetry; exact key_token_neq_user).
      apply lookup_insert_eq.
    + apply lookup_insert_eq.
  - intros error E. unfold login. by rewrite E.
Qed.

(** *** The derived flag *)

(** C4, amended. [isAuthenticated] is true exactly when the token is a
    non-empty string. *)
Theorem isAuthenticated_iff_token_nonempty (s : State) :
  isAuthenticated s = true <-> exists t, token s = Some t /\ t <> [].
Proof.
  unfold isAuthenticated, truthy_opt, truthy.
  destruct (token s) as [[|c t]|]; split; try done.
  - intros (t & [= <-] & H). done.
  - intros _. by eexists.
  - intros (t & H & _). done.
Qed.

(** *** Caption style and history *)

(** C7. A partial style with only a color sets the color and keeps the
    font size. *)
Theorem updateCaptionStyle_color_only (c : jsstring) (w : World) :
  let w' := updateCaptionStyle
              {| fontSize_opt := None; color_opt := Some c |} w in
  color (captionStyle (state w')) = c /\
  fontSize (captionStyle (state w')) = fontSize (captionStyle (state w)).
Proof. split; reflexivity. Qed.

(** C10. [clearHistory] empties the history, keeps every other state
    cell, and is idempotent. *)
Theorem clearHistory_frame (w : World) :
  let w' := clearHistory w in
  transcriptHistory (state w') = [] /\
  transcript (state w') = transcript (state w) /\
  isListening (state w') = isListening (state w) /\
  captionStyle (state w') = captionStyle (state w) /\
  user (state w') = user (state w) /\
  token (state w') = token (state w) /\
  clearHistory w' = w'.
Proof. repeat split. Qed.

(** C6. A finalized result whose text is all white space leaves the
    world, and so the history, as it was: [addToHistory] returns at once,
    and a result event that carries only that result keeps the history. *)
Theorem blank_result_keeps_history (text : jsstring) (w : World) :
  blank text = true ->
  addToHistory Date_now text w = w /\
  transcriptHistory (state
    (onresult Date_now
       {| resultIndex := 0;
          results := [{| isFinal := true; best := text |}] |} w))
  = transcriptHistory (state w).
Proof.
  intros B.
  assert (E : addToHistory Date_now text w = w).
  { unfold addToHistory. rewrite truthy_trim_blank, B. reflexivity. }
  split; [exact E|].
  unfold onresult. simpl. rewrite E. reflexivity.
Qed.

(** *** Appending to the history *)

Lemma addToHistory_nonblank (text : jsstring) (w : World) :
  blank text = false ->
  addToHistory Date_now text w
  = update (setTranscriptHistory (fun prev =>
              take 50 ({| id := toString (Date_now (reads w)); text := text |}
                         :: prev)))
           (tick w).
Proof.
  intros B. unfold addToHistory. rewrite truthy_trim_blank, B. reflexivity.
Qed.

Lemma length_stamped (k : nat) (texts : list jsstring) :
  length (stamped Date_now k texts) = length texts.
Proof.
  revert k. induction texts as [|t ts IH]; intros k; simpl; [done|].
  by rewrite IH.
Qed.

Lemma appendAll_cons (t : jsstring) (ts : list jsstring) (w : World) :
  appendAll Date_now (t :: ts) w
  = appendAll Date_now ts (addToHistory Date_now t w).
Proof. reflexivity. Qed.

Lemma appendAll_reads (texts : list jsstring) (w : World) :
  Forall (fun t => blank t = false) texts ->
  reads (appendAll Date_now texts w) = reads w + length texts.
Proof.
  revert w. induction texts as [|t ts IH]; intros w H.
  - simpl. lia.
  - inversion H as [|? ? Ht Hts]; subst.
    rewrite appendAll_cons, (IH _ Hts).
    rewrite (addToHistory_nonblank _ _ Ht). simpl. lia.
Qed.

(** Appending to a history of at most 50 entries. *)
Lemma appendAll_capped (texts : list jsstring) (w : World) :
  Forall (fun t => blank t = false) texts ->
  length (transcriptHistory (state w)) <= 50 ->
  transcriptHistory (state (appendAll Date_now texts w))
  = take 50 (rev (stamped Date_now (reads w) texts)
             ++ transcriptHistory (state w)).
Proof.
  revert w. induction texts as [|t ts IH]; intros w H L.
  - simpl. by rewrite take_ge.
  - inversion H as [|? ? Ht Hts]; subst.
    rewrite appendAll_cons, (IH _ Hts).
    + rewrite (addToHistory_nonblank _ _ Ht).
      cbn [state update tick setTranscriptHistory transcriptHistory reads
           stamped rev].
      rewrite take_app_take, <- app_assoc. reflexivity.
    + rewrite (addToHistory_nonblank _ _ Ht).
      cbn [state update tick setTranscriptHistory transcriptHistory].
      rewrite length_take. lia.
Qed.

(** Appending at least one text to any history. *)
Lemma appendAll_history (t : jsstring) (ts : list jsstring) (w : World) :
  Forall (fun t => blank t = false) (t :: ts) ->
  transcriptHistory (state (appendAll Date_now (t :: ts) w))
  = take 50 (rev (stamped Date_now (reads w) (t :: ts))
             ++ transcriptHistory (state w)).
Proof.
  intros H. inversion H as [|? ? Ht Hts]; subst.
  rewrite appendAll_cons, (appendAll_capped _ _ Hts).
  - rewrite (addToHistory_nonblank _ _ Ht).
    cbn [state update tick setTranscriptHistory transcriptHistory reads
         stamped rev].
    rewrite take_app_take, <- app_assoc. reflexivity.
  - rewrite (addToHistory_nonblank _ _ Ht).
    cbn [state update tick setTranscriptHistory transcriptHistory].
    rewrite length_take. lia.
Qed.

(** A result event appends the texts of the final results of its window,
    in their order. *)
Lemma onresult_loop_appends (rs : list SpeechRecognitionResult)
    (cur : jsstring) (w : World) :
  (onresult_loop Date_now rs cur w).2
  = appendAll Date_now (map best (filter (fun r => isFinal r = true) rs)) w.
Proof.
  revert cur w. induction rs as [|r rs IH]; intros cur w; [reflexivity|].
  cbn [onresult_loop]. rewrite IH. rewrite filter_cons.
  destruct (isFinal r); reflexivity.
Qed.

Lemma onresult_history (event : SpeechRecognitionEvent) (w : World) :
  transcriptHistory (state (onresult Date_now event w))
  = transcriptHistory (state
      (appendAll Date_now
         (map best (filter (fun r => isFinal r = true)
                      (drop (resultIndex event) (results event)))) w)).
Proof.
  unfold onresult.
  rewrite <- (onresult_loop_appends
                (drop (resultIndex event) (results event)) [] w).
  destruct (onresult_loop _ _ _ _) as [cur w']. reflexivity.
Qed.

(** C2. After [N] finalized results with text that is not all white space
    are appended in turn: when [N > 50] the history has exactly 50 entries,
    the 50 appended last, newest first, whatever it held before; when
    [N <= 50] its first [N] entries are the appended ones, newest first,
    and they are the whole history when it was empty before. *)
Theorem history_keeps_latest_50 (texts : list jsstring) (w : World) :
  Forall (fun t => blank t = false) texts ->
  let N := length texts in
  let entries := stamped Date_now (reads w) texts in
  let h := transcriptHistory (state (appendAll Date_now texts w)) in
  (50 < N -> length h = 50 /\ h = rev (drop (N - 50) entries)) /\
  (N <= 50 ->
   take N h = rev entries /\
   (transcriptHistory (state w) = [] -> h = rev entries)).
Proof.
  intros H N entries h.
  assert (LE : length (rev entries) = N).
  { unfold entries. by rewrite length_rev, length_stamped. }
  split.
  - intros HN.
    assert (E : h = take 50 (rev entries)).
    { subst h entries. destruct texts as [|t ts]; [simpl in *; lia|].
      rewrite (appendAll_history _ _ _ H).
      apply take_app_le. rewrite LE. lia. }
    split.
    + rewrite E, length_take. lia.
    + rewrite E, firstn_rev.
      rewrite length_rev in LE. rewrite LE. reflexivity.
  - intros HN. destruct texts as [|t ts].
    + subst h entries. simpl. split; [by rewrite take_0 | auto].
    + assert (E : h = take 50 (rev entries ++ transcriptHistory (state w))).
      { subst h entries. apply (appendAll_history _ _ _ H). }
      split.
      * rewrite E, take_take, Nat.min_l by lia.
        rewrite <- LE. apply take_app_length.
      * intros E0. rewrite E, E0, app_nil_r. apply take_ge. lia.
Qed.

(** *** What every reachable world satisfies *)

Lemma exec_app (acts1 acts2 : list Action) (w : World) :
  exec_ (acts1 ++ acts2) w = exec_ acts2 (exec_ acts1 w).
Proof. apply fold_left_app. Qed.

Lemma exec_invariant (P : World -> Prop) :
  (forall a w, P w -> P (run_ a w)) ->
  forall acts w, P w -> P (exec_ acts w).
Proof.
  intros Hrun acts. induction acts as [|a acts IH]; intros w Hw; simpl; auto.
Qed.

Lemma entry_ok_mono (k k' : nat) (e : TranscriptEntry) :
  k <= k' -> entry_ok Date_now k e -> entry_ok Date_now k' e.
Proof.
  intros Hk [B (j & Hj & E)]. split; [exact B|]. exists j. split; [lia|exact E].
Qed.

Lemma history_ok_frame (w w' : World) :
  transcriptHistory (state w') = transcriptHistory (state w) ->
  reads w' = reads w ->
  history_ok Date_now w -> history_ok Date_now w'.
Proof. unfold history_ok. intros -> ->. auto. Qed.

Lemma addToHistory_ok (text : jsstring) (w : World) :
  history_ok Date_now w -> history_ok Date_now (addToHistory Date_now text w).
Proof.
  intros [H L]. destruct (blank text) eqn:B.
  - unfold addToHistory. rewrite truthy_trim_blank, B. simpl. by split.
  - rewrite (addToHistory_nonblank _ _ B). unfold history_ok.
    cbn [state update tick setTranscriptHistory transcriptHistory reads].
    split; [|rewrite length_take; lia].
    apply Forall_take. constructor.
    + split; [exact B|]. exists (reads w). split; [lia|reflexivity].
    + eapply Forall_impl; [exact H|]. intros e. apply entry_ok_mono. lia.
Qed.

Lemma onresult_loop_ok (rs : list SpeechRecognitionResult)
    (cur : jsstring) (w : World) :
  history_ok Date_now w ->
  history_ok Date_now (onresult_loop Date_now rs cur w).2.
Proof.
  revert cur w. induction rs as [|r rs IH]; intros cur w H; simpl; [exact H|].
  apply IH. destruct (isFinal r); [by apply addToHistory_ok | exact H].
Qed.

Lemma onresult_ok (event : SpeechRecognitionEvent) (w : World) :
  history_ok Date_now w -> history_ok Date_now (onresult Date_now event w).
Proof.
  intros H. unfold onresult.
  pose proof (onresult_loop_ok (drop (resultIndex event) (results event)) [] w H)
    as H'.
  destruct (onresult_loop _ _ _ _) as [cur w']. exact H'.
Qed.

Lemma hydrate_keeps (w : World) :
  let w' := hydrate JSON_parse w in
  transcriptHistory (state w') = transcriptHistory (state w) /\
  reads w' = reads w /\
  recognizers w' = recognizers w /\
  recognition w' = recognition w /\
  isListening (state w') = isListening (state w).
Proof.
  unfold hydrate. repeat case_match; repeat split.
Qed.

Lemma startListening_keeps (w : World) :
  let w' := world_of (startListening w) in
  transcriptHistory (state w') = transcriptHistory (state w) /\
  reads w' = reads w.
Proof.
  unfold startListening, rec_start. destruct (recognition w) as [i|]; [|done].
  destruct (status_of i _) as [[]|]; done.
Qed.

Lemma stopListening_keeps (w : World) :
  let w' := stopListening w in
  transcriptHistory (state w') = transcriptHistory (state w) /\
  reads w' = reads w.
Proof.
  unfold stopListening, rec_stop. destruct (recognition w) as [i|]; [|done].
  destruct (status_of i _) as [[]|]; done.
Qed.

Lemma onend_keeps (i : nat) (w : World) :
  let w' := world_of (onend i w) in
  transcriptHistory (state w') = transcriptHistory (state w) /\
  reads w' = reads w.
Proof.
  unfold onend, rec_start. destruct (recognizers w !! i) as [r|]; [|done].
  destruct (closure_isListening r); [|done].
  destruct (status_of i w) as [[]|]; done.
Qed.

Lemma run_history_ok (a : Action) (w : World) :
  history_ok Date_now w -> history_ok Date_now (run_ a w).
Proof.
  intros H. destruct a; cbn [run].
  - apply (history_ok_frame w); [| |exact H];
      unfold render; by destruct SpeechRecognition_available.
  - apply (history_ok_frame w); [| |exact H]; apply startListening_keeps.
  - apply (history_ok_frame w); [| |exact H]; apply stopListening_keeps.
  - split; [constructor | simpl; lia].
  - by apply (history_ok_frame w).
  - unfold login. destruct (authService_login _ _) as [?|[? ?]];
      [exact H | by apply (history_ok_frame w)].
  - unfold register. destruct (authService_register _) as [?|[? ?]];
      [exact H | by apply (history_ok_frame w)].
  - by apply (history_ok_frame w).
  - destruct (in_session i w); [by apply onresult_ok | exact H].
  - destruct (in_session i w); [|exact H].
    apply (history_ok_frame w); [| |exact H];
      unfold onerror; by case_match.
  - destruct (in_session i w); [|exact H].
    apply (history_ok_frame (set_status i Idle w)); [| |by apply (history_ok_frame w)];
      apply onend_keeps.
Qed.

Lemma mount_history_ok (store : gmap jsstring jsstring) :
  history_ok Date_now (mount_ store).
Proof.
  unfold mount. eapply history_ok_frame.
  - apply hydrate_keeps.
  - apply hydrate_keeps.
  - unfold render. destruct SpeechRecognition_available;
      (split; [constructor | simpl; lia]).
Qed.

(** *** Without the recognition capability *)

Lemma quiet_not_in_session (i : nat) (w : World) :
  quiet w -> in_session i w = false.
Proof.
  intros (R & _ & _). unfold in_session, status_of. rewrite R. reflexivity.
Qed.

Lemma run_quiet (a : Action) (w : World) :
  SpeechRecognition_available = false -> quiet w -> quiet (run_ a w).
Proof.
  intros Hav Q. pose proof Q as (R & C & L).
  destruct a; cbn [run];
    try (rewrite (quiet_not_in_session _ _ Q); exact Q).
  - unfold render. rewrite Hav. by repeat split.
  - unfold startListening. rewrite C. by repeat split.
  - unfold stopListening. rewrite C. exact Q.
  - by repeat split.
  - by repeat split.
  - unfold login. destruct (authService_login _ _) as [?|[? ?]];
      [exact Q | by repeat split].
  - unfold register. destruct (authService_register _) as [?|[? ?]];
      [exact Q | by repeat split].
  - by repeat split.
Qed.

Lemma mount_quiet (store : gmap jsstring jsstring) :
  SpeechRecognition_available = false -> quiet (mount_ store).
Proof.
  intros Hav. unfold mount, quiet.
  destruct (hydrate_keeps
              (render SpeechRecognition_available
                 {| state := initialState js_null; localStorage := store;
                    reads := 0; recognizers := []; recognition := None;
                    effects := [] |})) as (_ & _ & -> & -> & ->).
  unfold render. rewrite Hav. by repeat split.
Qed.

(** C8. In a browser without the recognition capability, in every
    reachable world, [startListening] returns normally, only reports that
    the capability is unsupported, and leaves the state cells as they
    were: [isListening] is false before and after, the transcript is
    unchanged, and no recogniser exists that could have been started. *)
Theorem startListening_without_capability
    (store : gmap jsstring jsstring) (acts : list Action) :
  SpeechRecognition_available = false ->
  let w := exec_ acts (mount_ store) in
  startListening w = Normal (report (Alert msg_unsupported) w) /\
  let w' := world_of (startListening w) in
  isListening (state w) = false /\
  isListening (state w') = false /\
  transcript (state w') = transcript (state w) /\
  state w' = state w /\
  recognizers w' = [] /\
  effects w' = effects w ++ [Alert msg_unsupported].
Proof.
  intros Hav w.
  assert (Q : quiet w).
  { apply exec_invariant; [intros; by apply run_quiet | by apply mount_quiet]. }
  destruct Q as (R & C & L).
  assert (E : startListening w = Normal (report (Alert msg_unsupported) w)).
  { unfold startListening. by rewrite C. }
  split; [exact E|]. rewrite E. cbn [world_of]. by repeat split.
Qed.

(** *** The session a render started *)

Lemma exec_renders (n : nat) (r0 : Recognizer) (m : nat) (w : World) :
  SpeechRecognition_available = true ->
  isListening (state w) = true ->
  recognizers w
  = r0 :: repeat {| closure_isListening := true; status := Idle |} m ->
  let w' := exec_ (repeat Render n) w in
  isListening (state w') = true /\
  recognizers w'
  = r0 :: repeat {| closure_isListening := true; status := Idle |} (m + n).
Proof.
  intros Hav. revert m w. induction n as [|n IH]; intros m w L R.
  - simpl. by rewrite Nat.add_0_r.
  - cbn [repeat exec fold_left run].
    destruct (IH (S m) (render SpeechRecognition_available w)) as [L' R'].
    + unfold render. by rewrite Hav.
    + unfold render. rewrite Hav. cbn [recognizers]. rewrite R, L.
      change (r0 :: ?l ++ ?k) with ((r0 :: l) ++ k).
      rewrite <- app_comm_cons. f_equal.
      rewrite <- repeat_cons. reflexivity.
    + split; [exact L'|]. unfold exec in R'. rewrite R'. f_equal. f_equal. lia.
Qed.

(** C5, what the code does. After the provider is mounted and
    [startListening] is called, the recogniser that was started belongs to
    the first render, whose [onend] closed over [isListening = false].
    However many renders follow, when that session ends on its own the
    flag [isListening] is still true and no recogniser is restarted: every
    recogniser is idle. *)
Theorem autoend_after_start_not_restarted
    (store : gmap jsstring jsstring) (n : nat) :
  SpeechRecognition_available = true ->
  let w := exec_ (StartListening :: repeat Render n) (mount_ store) in
  isListening (state w) = true /\
  status_of 0 w = Some Started /\
  let w' := run_ (EndEvent 0) w in
  isListening (state w') = true /\
  Forall (fun r => status r = Idle) (recognizers w').
Proof.
  intros Hav w.
  set (m := mount_ store).
  assert (Hm : recognizers m = [{| closure_isListening := false; status := Idle |}]
               /\ recognition m = Some 0).
  { subst m. unfold mount.
    destruct (hydrate_keeps
                (render SpeechRecognition_available
                   {| state := initialState js_null; localStorage := store;
                      reads := 0; recognizers := []; recognition := None;
                      effects := [] |})) as (_ & _ & -> & -> & _).
    unfold render. by rewrite Hav. }
  destruct Hm as [Rm Cm].
  set (w1 := world_of (startListening m)).
  assert (H1 : isListening (state w1) = true /\
               recognizers w1
               = {| closure_isListening := false; status := Started |}
                   :: repeat {| closure_isListening := true; status := Idle |} 0).
  { subst w1. unfold startListening, rec_start, status_of. rewrite Cm.
    cbn [recognizers update]. rewrite Rm. cbn. by rewrite Rm. }
  destruct H1 as [L1 R1].
  destruct (exec_renders n _ 0 w1 Hav L1 R1) as [L R].
  change (exec_ (repeat Render n) w1) with w in L, R.
  assert (S0 : status_of 0 w = Some Started).
  { unfold status_of. by rewrite R. }
  clearbody w. clear L1 R1. clearbody w1.
  split; [exact L|]. split; [exact S0|].
  cbn [run]. unfold in_session. rewrite S0.
  unfold onend, set_status. cbn [recognizers with_recognizers].
  rewrite R. cbn. split; [exact L|].
  rewrite R. cbn. constructor; [done|].
  apply Forall_forall. intros r Hr%list_elem_of_In%repeat_spec. by subst r.
Qed.

End ProviderFacts.

(** ** The provider in the example browser *)

Import Browser.

Local Abbreviation mountB := (mount JNull parse).
Local Abbreviation execB service clock capability :=
  (exec JNull stringify service no_registration clock capability).

(** A stored token with a stored user that is not JSON. *)
Lemma hydrate_parse_failure_keeps_token_witness :
  let store : gmap jsstring jsstring :=
    <[key_token := lit "abc"]> (<[key_user := lit "{bad"]> ∅) in
  let w := mountB true store in
  parse (lit "{bad") = None /\
  token (state w) = Some (lit "abc") /\
  isAuthenticated (state w) = true /\
  user (state w) = JNull /\
  localStorage w !! key_token = None /\
  localStorage w !! key_user = None.
Proof.
  intros store w. split; [reflexivity|].
  apply (hydrate_parse_failure_keeps_token JNull parse true store
           (lit "abc") (lit "{bad"));
    [vm_compute; reflexivity | vm_compute; reflexivity | reflexivity
    | reflexivity | discriminate | reflexivity].
Defined.

(** A login the service accepts, and one it rejects. *)
Lemma login_installs_session_witness :
  let w := mountB true ∅ in
  (exists w',
      login stringify one_account (lit "ada@example.com") (lit "secret") w
      = inr w' /\
      token (state w') = Some (lit "tok-1") /\
      user (state w') = ada /\
      localStorage w' !! key_token = Some (lit "tok-1") /\
      localStorage w' !! key_user = Some (stringify ada)) /\
  login stringify one_account (lit "ada@example.com") (lit "guess") w
  = inl (lit "Invalid credentials").
Proof.
  intros w. split.
  - apply (proj1 (login_installs_session stringify one_account
                    (lit "ada@example.com") (lit "secret") w)).
    reflexivity.
  - apply (proj2 (login_installs_session stringify one_account
                    (lit "ada@example.com") (lit "guess") w)).
    reflexivity.
Defined.

(** C4, as stated, fails: after a login that the service answers with an
    empty token, the token in memory is a string, not null, and
    [isAuthenticated] is false. *)
Lemma empty_token_not_authenticated :
  let w := execB empty_token ticking true
             [Login (lit "ada@example.com") (lit "secret")] (mountB true ∅) in
  token (state w) = Some [] /\
  token (state w) <> None /\
  isAuthenticated (state w) = false.
Proof. repeat split. discriminate. Qed.

(** Fifty-one texts appended to the empty history. *)
Lemma history_keeps_latest_50_witness :
  let texts := map (fun k => lit "take " ++ toString (Z.of_nat k)) (seq 1 51) in
  let w := mountB true ∅ in
  let h := transcriptHistory (state (appendAll ticking texts w)) in
  length h = 50 /\ h = rev (drop 1 (stamped ticking 0 texts)).
Proof.
  intros texts w h.
  apply (history_keeps_latest_50 ticking texts w).
  - apply (bool_decide_unpack _). vm_compute. exact I.
  - vm_compute. lia.
Defined.

(** C3, as stated, fails: two results finalized within one millisecond,
    the first with a leading space, give a history whose entries share
    their id and one of whose texts differs from its trimmed form. *)
Lemma history_untrimmed_text_repeated_id :
  let event :=
    {| resultIndex := 0;
       results := [{| isFinal := true; best := lit " hi" |};
                   {| isFinal := true; best := lit "yo" |}] |} in
  let w := execB one_account frozen true
             [StartListening; ResultEvent 0 event] (mountB true ∅) in
  transcriptHistory (state w)
  = [{| id := lit "1700000000000"; text := lit "yo" |};
     {| id := lit "1700000000000"; text := lit " hi" |}] /\
  trim (lit " hi") <> lit " hi" /\
  ~ NoDup (map id (transcriptHistory (state w))).
Proof.
  intros event w. split; [vm_compute; reflexivity|]. split; [discriminate|].
  intros H. vm_compute in H. apply NoDup_cons_1_1 in H. apply H. left.
Qed.

(** A text of a space, a tab, a no-break space and a line feed. *)
Lemma blank_result_keeps_history_witness :
  let text := [32; 9; 160; 10]%N in
  let w := mountB true ∅ in
  addToHistory ticking text w = w /\
  transcriptHistory (state
    (onresult ticking
       {| resultIndex := 0;
          results := [{| isFinal := true; best := text |}] |} w))
  = transcriptHistory (state w).
Proof.
  intros text w. apply (blank_result_keeps_history ticking text w).
  reflexivity.
Defined.

(** A browser without the capability, after two calls and a render. *)
Lemma startListening_without_capability_witness :
  let w := execB one_account ticking false
             [StartListening; Render; StartListening] (mountB false ∅) in
  startListening w = Normal (report (Alert msg_unsupported) w) /\
  let w' := world_of (startListening w) in
  isListening (state w) = false /\
  isListening (state w') = false /\
  transcript (state w') = transcript (state w) /\
  state w' = state w /\
  recognizers w' = [] /\
  effects w' = effects w ++ [Alert msg_unsupported].
Proof.
  apply (startListening_without_capability JNull parse stringify one_account
           no_registration ticking false ∅
           [StartListening; Render; StartListening]).
  reflexivity.
Defined.

(** Mount, start, one render, and the end of the session. *)
Lemma autoend_after_start_not_restarted_witness :
  let w := execB one_account ticking true
             [StartListening; Render] (mountB true ∅) in
  isListening (state w) = true /\
  status_of 0 w = Some Started /\
  let w' := run JNull stringify one_account no_registration ticking true
              (EndEvent 0) w in
  isListening (state w') = true /\
  Forall (fun r => status r = Idle) (recognizers w').
Proof.
  apply (autoend_after_start_not_restarted JNull parse stringify one_account
           no_registration ticking true ∅ 1).
  reflexivity.
Defined.

(** * Further properties of the provider *)

Section SessionFacts.

Context {JSValue : Type} (js_null : JSValue).
Context (JSON_parse : jsstring -> option JSValue).
Context (JSON_stringify : JSValue -> jsstring).
Context {AuthError : Type}.
Context (authService_login :
           jsstring -> jsstring -> AuthError + (jsstring * JSValue)).
Context (authService_register :
           RegisterData -> AuthError + (jsstring * JSValue)).
Context (SpeechRecognition_available : bool).

Local Abbreviation World := (@World JSValue).
Local Abbreviation mount_ := (mount js_null JSON_parse SpeechRecognition_available).
Local Abbreviation login_ := (login JSON_stringify authService_login).
Local Abbreviation register_ := (register JSON_stringify authService_register).
Local Abbreviation first_render store :=
  (render SpeechRecognition_available
     {| state := initialState js_null; localStorage := store; reads := 0;
        recognizers := []; recognition := None; effects := [] |}).

(** ** Hydration *)

Lemma first_render_session (store : gmap jsstring jsstring) :
  state (first_render store) = initialState js_null /\
  localStorage (first_render store) = store /\
  effects (first_render store) = [].
Proof. unfold render. by destruct SpeechRecognition_available. Qed.

(** Hydration of a store that passes the test and parses. *)
Lemma hydrate_valid (w : World) (t u : jsstring) (v : JSValue) :
  localStorage w !! key_token = Some t ->
  localStorage w !! key_user = Some u ->
  truthy t = true -> truthy u = true -> u <> lit "undefined" ->
  JSON_parse u = Some v ->
  hydrate JSON_parse w = update (setUser v) (update (setToken (Some t)) w).
Proof.
  intros Ht Hu Tt Tu Hne Hp. unfold hydrate, getItem.
  rewrite Ht, Hu, Tt, Tu, Hp, (bool_decide_eq_false_2 _ Hne). reflexivity.
Qed.

(** Hydration of a store that fails the test. *)
Lemma hydrate_skip (w : World) :
  truthy_opt (localStorage w !! key_token) = false \/
  truthy_opt (localStorage w !! key_user) = false \/
  localStorage w !! key_user = Some (lit "undefined") ->
  hydrate JSON_parse w = w.
Proof.
  unfold hydrate, getItem.
  destruct (localStorage w !! key_token) as [t|];
    destruct (localStorage w !! key_user) as [u|]; simpl; try done.
  intros [H|[H|H]].
  - by rewrite H.
  - rewrite H. by destruct (truthy t).
  - injection H as ->. rewrite bool_decide_eq_true_2 by done.
    by destruct (truthy t), (truthy (lit "undefined")).
Qed.

(** X1. When both keys hold non-empty values, the stored user is not the
    literal "undefined" and it parses, mounting installs the stored token
    and the parsed user, [isAuthenticated] is true, and the store is left
    as it was with nothing reported. *)
Theorem mount_valid_installs_session
    (store : gmap jsstring jsstring) (t u : jsstring) (v : JSValue) :
  store !! key_token = Some t ->
  store !! key_user = Some u ->
  truthy t = true -> truthy u = true -> u <> lit "undefined" ->
  JSON_parse u = Some v ->
  let w := mount_ store in
  token (state w) = Some t /\
  user (state w) = v /\
  isAuthenticated (state w) = true /\
  localStorage w = store /\
  effects w = [].
Proof.
  intros Ht Hu Tt Tu Hne Hp w. subst w. unfold mount.
  destruct (first_render_session store) as (Es & El & Ee).
  rewrite (hydrate_valid _ t u v); [|by rewrite El|by rewrite El|done..].
  unfold isAuthenticated. simpl. by rewrite El, Ee.
Qed.

(** X2. When a key is absent or holds the empty string, or the stored user
    is the literal "undefined", mounting installs nothing, reports
    nothing, and leaves the store as it was: the keys are not removed. *)
Theorem mount_skips_hydration (store : gmap jsstring jsstring) :
  truthy_opt (store !! key_token) = false \/
  truthy_opt (store !! key_user) = false \/
  store !! key_user = Some (lit "undefined") ->
  let w := mount_ store in
  state w = initialState js_null /\
  localStorage w = store /\
  effects w = [].
Proof.
  intros H w. subst w. unfold mount.
  destruct (first_render_session store) as (Es & El & Ee).
  rewrite hydrate_skip by (by rewrite El). by rewrite Es, El, Ee.
Qed.

(** X3. Whatever the store holds, a token that mounting installs is not
    empty: right after mounting, [isAuthenticated] is true exactly when
    the token is not null. *)
Theorem mount_token_nonempty (store : gmap jsstring jsstring) :
  let w := mount_ store in
  isAuthenticated (state w) = true <-> token (state w) <> None.
Proof.
  intros w. subst w. unfold mount.
  destruct (first_render_session store) as (Es & El & Ee).
  assert (Skip : hydrate JSON_parse (first_render store) = first_render store ->
                 isAuthenticated (state (hydrate JSON_parse (first_render store)))
                 = true
                 <-> token (state (hydrate JSON_parse (first_render store)))
                     <> None).
  { intros ->. unfold isAuthenticated. rewrite Es. simpl. split; done. }
  destruct (store !! key_token) as [t|] eqn:Ht;
    [|apply Skip, hydrate_skip; left; by rewrite El, Ht].
  destruct (store !! key_user) as [u|] eqn:Hu;
    [|apply Skip, hydrate_skip; right; left; by rewrite El, Hu].
  destruct (truthy t) eqn:Tt;
    [|apply Skip, hydrate_skip; left; by rewrite El, Ht].
  destruct (truthy u) eqn:Tu;
    [|apply Skip, hydrate_skip; right; left; by rewrite El, Hu].
  destruct (decide (u = lit "undefined")) as [->|Hne];
    [apply Skip, hydrate_skip; right; right; by rewrite El|].
  unfold hydrate, getItem, isAuthenticated.
  rewrite El, Ht, Hu, Tt, Tu, (bool_decide_eq_false_2 _ Hne).
  destruct (JSON_parse u); simpl; by rewrite Tt.
Qed.

(** ** Login, register and logout *)

Lemma install_session (t : jsstring) (u : JSValue) (w : World) :
  let w' := install JSON_stringify t u w in
  token (state w') = Some t /\
  user (state w') = u /\
  localStorage w' !! key_token = Some t /\
  localStorage w' !! key_user = Some (JSON_stringify u).
Proof.
  simpl. repeat split.
  - rewrite lookup_insert_ne by (symmetry; exact key_token_neq_user).
    apply lookup_insert_eq.
  - apply lookup_insert_eq.
Qed.

Lemma logout_install (t : jsstring) (u : JSValue) (w : World) :
  logout js_null (install JSON_stringify t u w) = logout js_null w.
Proof.
  unfold logout, install, removeItem, setItem, with_storage, update. simpl.
  f_equal.
  rewrite (delete_insert_ne _ key_token key_user)
    by (exact key_token_neq_user).
  by rewrite !delete_insert_eq.
Qed.

(** X4. When the registration call resolves with token [t] and user [u],
    [register] resolves with both in memory and in the store, as [login]
    does; when the call is rejected, [register] is rejected with the same
    error. *)
Theorem register_installs_session (userData : RegisterData) (w : World) :
  (forall t u,
      authService_register userData = inr (t, u) ->
      exists w',
        register_ userData w = inr w' /\
        token (state w') = Some t /\
        user (state w') = u /\
        localStorage w' !! key_token = Some t /\
        localStorage w' !! key_user = Some (JSON_stringify u)) /\
  (forall error,
      authService_register userData = inl error ->
      register_ userData w = inl error).
Proof.
  split.
  - intros t u E. unfold register. rewrite E.
    eexists; split; [reflexivity|]. apply install_session.
  - intros error E. unfold register. by rewrite E.
Qed.

(** X5. [logout] in any world leaves no token, no user and neither key,
    so [isAuthenticated] is false; every other key of the store and every
    other state cell is as before. *)
Theorem logout_clears_session (w : World) :
  let w' := logout js_null w in
  token (state w') = None /\
  user (state w') = js_null /\
  isAuthenticated (state w') = false /\
  localStorage w' !! key_token = None /\
  localStorage w' !! key_user = None /\
  (forall k, k <> key_token -> k <> key_user ->
             localStorage w' !! k = localStorage w !! k) /\
  transcript (state w') = transcript (state w) /\
  transcriptHistory (state w') = transcriptHistory (state w) /\
  isListening (state w') = isListening (state w) /\
  captionStyle (state w') = captionStyle (state w).
Proof.
  simpl. repeat split.
  - rewrite lookup_delete_ne by (symmetry; exact key_token_neq_user).
    apply lookup_delete_eq.
  - apply lookup_delete_eq.
  - intros k Ht Hu. by rewrite !lookup_delete_ne.
Qed.

(** X6. A successful [login] followed by [logout] gives the world that
    [logout] alone gives: nothing of the session is left. *)
Theorem login_then_logout (email password : jsstring) (w w' : World) :
  login_ email password w = inr w' ->
  logout js_null w' = logout js_null w.
Proof.
  unfold login. destruct (authService_login _ _) as [e|[t u]]; [done|].
  intros [= <-]. apply logout_install.
Qed.

(** X7. A session survives a reload: when [login] resolved with a
    non-empty token and a user whose serialised form parses back to it
    (and is neither empty nor "undefined"), mounting a provider on the
    store that [login] left installs the same token and user. *)
Theorem login_then_reload
    (email password t : jsstring) (u : JSValue) (w w' : World) :
  authService_login email password = inr (t, u) ->
  login_ email password w = inr w' ->
  truthy t = true ->
  truthy (JSON_stringify u) = true ->
  JSON_stringify u <> lit "undefined" ->
  JSON_parse (JSON_stringify u) = Some u ->
  let w2 := mount_ (localStorage w') in
  token (state w2) = Some t /\
  user (state w2) = u /\
  isAuthenticated (state w2) = true.
Proof.
  intros E L Tt Tu Hne Hp w2. subst w2.
  unfold login in L. rewrite E in L. injection L as <-.
  destruct (install_session t u w) as (_ & _ & Ht & Hu).
  unfold mount.
  destruct (first_render_session (localStorage (install JSON_stringify t u w)))
    as (Es & El & Ee).
  rewrite (hydrate_valid _ t (JSON_stringify u) u);
    [|by rewrite El|by rewrite El|done..].
  unfold isAuthenticated. simpl. done.
Qed.

(** X8. A logout survives a reload: mounting a provider on the store that
    [logout] left installs no session and reports nothing. *)
Theorem logout_then_reload (w : World) :
  let w2 := mount_ (localStorage (logout js_null w)) in
  state w2 = initialState js_null /\
  isAuthenticated (state w2) = false /\
  effects w2 = [].
Proof.
  intros w2. subst w2. unfold mount.
  destruct (first_render_session (localStorage (logout js_null w)))
    as (Es & El & Ee).
  rewrite hydrate_skip.
  - by rewrite Es, Ee.
  - left. rewrite El. simpl.
    rewrite lookup_delete_ne by (symmetry; exact key_token_neq_user).
    by rewrite lookup_delete_eq.
Qed.

End SessionFacts.

Section CaptionFacts.

Context {JSValue : Type} (js_null : JSValue).
Context (JSON_parse : jsstring -> option JSValue).
Context (JSON_stringify : JSValue -> jsstring).
Context {AuthError : Type}.
Context (authService_login :
           jsstring -> jsstring -> AuthError + (jsstring * JSValue)).
Context (authService_register :
           RegisterData -> AuthError + (jsstring * JSValue)).
Context (Date_now : nat -> Z).
Context (SpeechRecognition_available : bool).

Local Abbreviation World := (@World JSValue).
Local Abbreviation mount_ := (mount js_null JSON_parse SpeechRecognition_available).
Local Abbreviation run_ :=
  (run js_null JSON_stringify authService_login authService_register
       Date_now SpeechRecognition_available).
Local Abbreviation exec_ :=
  (exec js_null JSON_stringify authService_login authService_register
        Date_now SpeechRecognition_available).

(** Everything of a world but the history, the transcript and the clock. *)
Local Abbreviation others w :=
  (user (state w), token (state w), isListening (state w),
   captionStyle (state w), localStorage w, recognizers w, recognition w,
   effects w).

(** Case analysis on a [match] of the goal whose scrutinee has no [match]
    inside. *)
Ltac case_inner :=
  match goal with
  | |- context [match ?x with _ => _ end] =>
      lazymatch x with
      | context [match _ with _ => _ end] => fail
      | _ => destruct x eqn:?
      end
  end.

(** ** Result events *)

Lemma addToHistory_others (text : jsstring) (w : World) :
  others (addToHistory Date_now text w) = others w /\
  transcript (state (addToHistory Date_now text w)) = transcript (state w).
Proof. unfold addToHistory. by destruct (negb _). Qed.

Lemma appendAll_others (texts : list jsstring) (w : World) :
  others (appendAll Date_now texts w) = others w /\
  transcript (state (appendAll Date_now texts w)) = transcript (state w).
Proof.
  revert w. induction texts as [|t ts IH]; intros w; [done|].
  change (appendAll Date_now (t :: ts) w)
    with (appendAll Date_now ts (addToHistory Date_now t w)).
  destruct (IH (addToHistory Date_now t w)) as [-> ->].
  apply addToHistory_others.
Qed.

Lemma onresult_loop_transcript (rs : list SpeechRecognitionResult)
    (cur : jsstring) (w : World) :
  (onresult_loop Date_now rs cur w).1 = cur ++ concat (map best rs).
Proof.
  revert cur w. induction rs as [|r rs IH]; intros cur w; simpl.
  - by rewrite app_nil_r.
  - by rewrite IH, <- app_assoc.
Qed.

Lemma onresult_eq (event : SpeechRecognitionEvent) (w : World) :
  onresult Date_now event w
  = update (setTranscript
              (concat (map best (drop (resultIndex event) (results event)))))
      (appendAll Date_now
         (map best (filter (fun r => isFinal r = true)
                      (drop (resultIndex event) (results event)))) w).
Proof.
  unfold onresult.
  rewrite <- (onresult_loop_appends Date_now
                (drop (resultIndex event) (results event)) [] w).
  pose proof (onresult_loop_transcript
                (drop (resultIndex event) (results event)) [] w) as T.
  destruct (onresult_loop _ _ _ _) as [cur w']. simpl in T. by rewrite T.
Qed.

(** X9. A result event sets the transcript to the concatenation of the
    best transcripts of all results from [resultIndex] on, final or not,
    and appends to the history the texts of the final ones among them, in
    their order; an index past the last result gives an empty transcript
    and no entry. *)
Theorem onresult_transcript_and_history
    (event : SpeechRecognitionEvent) (w : World) :
  let window := drop (resultIndex event) (results event) in
  onresult Date_now event w
  = update (setTranscript (concat (map best window)))
      (appendAll Date_now
         (map best (filter (fun r => isFinal r = true) window)) w) /\
  (length (results event) <= resultIndex event ->
   onresult Date_now event w = update (setTranscript []) w).
Proof.
  intros window. split; [apply onresult_eq|].
  intros Hlen. rewrite onresult_eq. by rewrite drop_ge.
Qed.

(** X10. Interim results never reach the history: an event whose results
    from [resultIndex] on are all interim changes the transcript and
    nothing else, and takes no clock reading. *)
Theorem onresult_interim_only (event : SpeechRecognitionEvent) (w : World) :
  Forall (fun r => isFinal r = false)
         (drop (resultIndex event) (results event)) ->
  onresult Date_now event w
  = update (setTranscript
              (concat (map best (drop (resultIndex event) (results event)))))
           w.
Proof.
  intros H. unfold onresult.
  pose proof (onresult_loop_transcript
                (drop (resultIndex event) (results event)) [] w) as T.
  assert (W : forall rs cur (w0 : World),
             Forall (fun r => isFinal r = false) rs ->
             (onresult_loop Date_now rs cur w0).2 = w0).
  { induction rs as [|r rs IH]; intros cur w0 Hrs; [done|].
    inversion Hrs as [|? ? Hr Hrs']; subst. simpl. rewrite Hr. by apply IH. }
  specialize (W _ [] w H).
  destruct (onresult_loop _ _ _ _) as [cur w']. simpl in T, W. by subst.
Qed.

(** X11. In every reachable world the history holds at most 50 entries. *)
Theorem history_at_most_50
    (store : gmap jsstring jsstring) (acts : list Action) :
  length (transcriptHistory (state (exec_ acts (mount_ store)))) <= 50.
Proof.
  assert (H : history_ok Date_now (exec_ acts (mount_ store))).
  { apply exec_invariant; [apply run_history_ok | apply mount_history_ok]. }
  apply H.
Qed.

(** ** What each action leaves alone *)

Lemma onresult_others (event : SpeechRecognitionEvent) (w : World) :
  others (onresult Date_now event w) = others w.
Proof.
  rewrite onresult_eq. apply appendAll_others.
Qed.

Lemma startListening_others (w : World) :
  let w' := world_of (startListening w) in
  user (state w') = user (state w) /\
  token (state w') = token (state w) /\
  captionStyle (state w') = captionStyle (state w) /\
  localStorage w' = localStorage w /\
  recognition w' = recognition w.
Proof. unfold startListening, rec_start. by repeat case_inner. Qed.

Lemma stopListening_others (w : World) :
  let w' := stopListening w in
  user (state w') = user (state w) /\
  token (state w') = token (state w) /\
  transcript (state w') = transcript (state w) /\
  captionStyle (state w') = captionStyle (state w) /\
  localStorage w' = localStorage w /\
  recognition w' = recognition w.
Proof. unfold stopListening, rec_stop. by repeat case_inner. Qed.

Lemma onend_state (i : nat) (w : World) :
  let w' := world_of (onend i w) in
  state w' = state w /\ localStorage w' = localStorage w /\
  reads w' = reads w /\ recognition w' = recognition w /\
  effects w' = effects w.
Proof. unfold onend, rec_start. by repeat case_inner. Qed.

Lemma onerror_state (error : jsstring) (w : World) :
  let w' := onerror error w in
  state w' = state w /\ localStorage w' = localStorage w /\
  reads w' = reads w /\ recognizers w' = recognizers w /\
  recognition w' = recognition w.
Proof. unfold onerror. by case_inner. Qed.

Lemma render_state (w : World) :
  let w' := render SpeechRecognition_available w in
  state w' = state w /\ localStorage w' = localStorage w /\
  reads w' = reads w /\ effects w' = effects w.
Proof. unfold render. by destruct SpeechRecognition_available. Qed.

(** X12. Only [login], [register] and [logout] touch the session: every
    other action leaves the token, the user and the whole store as they
    were; and no action at all changes a key of the store other than
    'token' and 'user'. *)
Theorem run_session_frame (a : Action) (w : World) :
  let w' := run_ a w in
  match a with
  | Login _ _ | Register _ | Logout => True
  | _ =>
      token (state w') = token (state w) /\
      user (state w') = user (state w) /\
      localStorage w' = localStorage w
  end /\
  (forall k, k <> key_token -> k <> key_user ->
             localStorage w' !! k = localStorage w !! k).
Proof.
  intros w'. subst w'.
  assert (K : forall (t : jsstring) (u : JSValue) k,
             k <> key_token -> k <> key_user ->
             localStorage (install JSON_stringify t u w) !! k
             = localStorage w !! k).
  { intros t u k Ht Hu. simpl. by rewrite !lookup_insert_ne. }
  destruct a; cbn [run].
  - destruct (render_state w) as (-> & -> & _). by repeat split.
  - destruct (startListening_others w) as (-> & -> & _ & -> & _).
    by repeat split.
  - destruct (stopListening_others w) as (-> & -> & _ & _ & -> & _).
    by repeat split.
  - by repeat split.
  - by repeat split.
  - split; [done|]. unfold login.
    destruct (authService_login _ _) as [?|[t u]]; [done|apply K].
  - split; [done|]. unfold register.
    destruct (authService_register _) as [?|[t u]]; [done|apply K].
  - split; [done|]. intros k Ht Hu. simpl. by rewrite !lookup_delete_ne.
  - destruct (in_session i w); [|by repeat split].
    pose proof (onresult_others event w) as H.
    injection H as Hu Ht _ _ Hl _ _ _. rewrite Hu, Ht, Hl. by repeat split.
  - destruct (in_session i w); [|by repeat split].
    destruct (onerror_state error w) as (-> & -> & _). by repeat split.
  - destruct (in_session i w); [|by repeat split].
    destruct (onend_state i (set_status i Idle w)) as (-> & -> & _).
    by repeat split.
Qed.

(** X13. Each caption cell is changed by its own operations only:
    [isListening] by [startListening] and [stopListening] (not by a
    recognition error or the end of a session), the caption style by
    [updateCaptionStyle], the history by a result event and [clearHistory],
    the transcript by a result event and [startListening]. *)
Theorem run_caption_frame (a : Action) (w : World) :
  let w' := run_ a w in
  match a with
  | StartListening | StopListening => True
  | _ => isListening (state w') = isListening (state w)
  end /\
  match a with
  | UpdateCaptionStyle _ => True
  | _ => captionStyle (state w') = captionStyle (state w)
  end /\
  match a with
  | ResultEvent _ _ | ClearHistory => True
  | _ => transcriptHistory (state w') = transcriptHistory (state w)
  end /\
  match a with
  | ResultEvent _ _ | StartListening => True
  | _ => transcript (state w') = transcript (state w)
  end.
Proof.
  intros w'. subst w'. destruct a; cbn [run].
  - destruct (render_state w) as (-> & _). by repeat split.
  - destruct (startListening_others w) as (_ & _ & -> & _).
    destruct (startListening_keeps w) as (-> & _). by repeat split.
  - destruct (stopListening_others w) as (_ & _ & -> & -> & _).
    destruct (stopListening_keeps w) as (-> & _). by repeat split.
  - by repeat split.
  - by repeat split.
  - unfold login. destruct (authService_login _ _) as [?|[t u]];
      by repeat split.
  - unfold register. destruct (authService_register _) as [?|[t u]];
      by repeat split.
  - by repeat split.
  - destruct (in_session i w); [|by repeat split].
    pose proof (onresult_others event w) as H.
    injection H as _ _ Hl Hc _ _ _ _. rewrite Hl, Hc. by repeat split.
  - destruct (in_session i w); [|by repeat split].
    destruct (onerror_state error w) as (-> & _). by repeat split.
  - destruct (in_session i w); [|by repeat split].
    destruct (onend_state i (set_status i Idle w)) as (-> & _).
    by repeat split.
Qed.

(** ** Recognisers and the renders that built them *)

Lemma status_of_set_status (i j : nat) (st : Status) (w : World) :
  status_of j (set_status i st w)
  = if decide (i = j) then (fun _ => st) <$> status_of i w
    else status_of j w.
Proof.
  unfold status_of, set_status. cbn [recognizers with_recognizers].
  destruct (decide (i = j)) as [<-|Hne].
  - rewrite list_lookup_alter_eq. by destruct (recognizers w !! i).
  - by rewrite list_lookup_alter_ne.
Qed.

Lemma closures_set_status (i : nat) (st : Status) (w : World) :
  closure_isListening <$> recognizers (set_status i st w)
  = closure_isListening <$> recognizers w.
Proof.
  unfold set_status. cbn [recognizers with_recognizers].
  generalize (recognizers w) as l. intros l. revert i.
  induction l as [|r l IH]; intros [|i]; simpl; [done..|].
  f_equal. apply IH.
Qed.

(** X14. When a session of recogniser [i] ends, whether [i] is started
    again depends on the [isListening] its handlers captured at render
    time and on nothing else: it is started again when that is true and
    left idle when it is false, whatever [isListening] is now. No other
    recogniser and no state cell changes. *)
Theorem end_event_follows_captured_flag (i : nat) (r : Recognizer) (w : World) :
  recognizers w !! i = Some r ->
  in_session i w = true ->
  let w' := run_ (EndEvent i) w in
  status_of i w'
  = Some (if closure_isListening r then Started else Idle) /\
  (forall j, j <> i -> status_of j w' = status_of j w) /\
  state w' = state w.
Proof.
  intros Hr Hin w'. subst w'. cbn [run]. rewrite Hin.
  assert (S0 : status_of i (set_status i Idle w) = Some Idle).
  { rewrite status_of_set_status, decide_True by done.
    unfold status_of. by rewrite Hr. }
  assert (R0 : recognizers (set_status i Idle w) !! i
               = Some {| closure_isListening := closure_isListening r;
                         status := Idle |}).
  { unfold set_status. cbn [recognizers with_recognizers].
    by rewrite list_lookup_alter_eq, Hr. }
  unfold onend. rewrite R0. cbn [closure_isListening].
  destruct (closure_isListening r).
  - unfold rec_start. rewrite S0. cbn [world_of]. repeat split.
    + rewrite status_of_set_status, decide_True by done. by rewrite S0.
    + intros j Hj. by rewrite !status_of_set_status, !decide_False.
  - cbn [world_of]. repeat split; [exact S0|].
    intros j Hj. by rewrite status_of_set_status, decide_False.
Qed.

Lemma startListening_closures (w : World) :
  closure_isListening <$> recognizers (world_of (startListening w))
  = closure_isListening <$> recognizers w.
Proof.
  unfold startListening, rec_start.
  destruct (recognition w) as [i|]; [|done].
  destruct (status_of i _) as [[]|]; cbn [world_of]; try done.
  by rewrite closures_set_status.
Qed.

Lemma stopListening_closures (w : World) :
  closure_isListening <$> recognizers (stopListening w)
  = closure_isListening <$> recognizers w.
Proof.
  unfold stopListening, rec_stop.
  destruct (recognition w) as [i|]; [|done].
  destruct (status_of i _) as [[]|]; try done.
  by rewrite closures_set_status.
Qed.

Lemma onend_closures (i : nat) (w : World) :
  closure_isListening <$> recognizers (world_of (onend i w))
  = closure_isListening <$> recognizers w.
Proof.
  unfold onend, rec_start.
  destruct (recognizers w !! i) as [r|]; [|done].
  destruct (closure_isListening r); [|done].
  destruct (status_of i w) as [[]|]; cbn [world_of]; try done.
  by rewrite closures_set_status.
Qed.

(** The captured flags after one action: those before, and the one of the
    recogniser a render adds. *)
Lemma run_closures (a : Action) (w : World) :
  closure_isListening <$> recognizers (run_ a w)
  = (closure_isListening <$> recognizers w)
    ++ match a with
       | Render =>
           if SpeechRecognition_available then [isListening (state w)] else []
       | _ => []
       end.
Proof.
  destruct a; cbn [run]; rewrite ?app_nil_r.
  - unfold render. destruct SpeechRecognition_available;
      cbn [recognizers]; [by rewrite fmap_app | by rewrite app_nil_r].
  - apply startListening_closures.
  - apply stopListening_closures.
  - done.
  - done.
  - unfold login. by destruct (authService_login _ _) as [?|[t u]].
  - unfold register. by destruct (authService_register _) as [?|[t u]].
  - done.
  - destruct (in_session i w); [|done].
    pose proof (onresult_others event w) as H.
    injection H as _ _ _ _ _ Hr _ _. by rewrite Hr.
  - destruct (in_session i w); [|done].
    destruct (onerror_state error w) as (_ & _ & _ & -> & _). done.
  - destruct (in_session i w); [|done].
    rewrite onend_closures. apply closures_set_status.
Qed.

Lemma exec_closures (acts : list Action) (w : World) :
  exists added,
    closure_isListening <$> recognizers (exec_ acts w)
    = (closure_isListening <$> recognizers w) ++ added.
Proof.
  revert w. induction acts as [|a acts IH]; intros w.
  - exists []. simpl. by rewrite app_nil_r.
  - destruct (IH (run_ a w)) as [added E]. cbn [exec fold_left].
    unfold exec in E. rewrite E, run_closures, <- app_assoc. by eexists.
Qed.

(** X15. A recogniser, once built, is never dropped, and whatever happens
    afterwards it keeps the [isListening] that its handlers captured when
    it was built. *)
Theorem recogniser_keeps_captured_flag
    (acts : list Action) (w : World) (i : nat) (r : Recognizer) :
  recognizers w !! i = Some r ->
  exists r',
    recognizers (exec_ acts w) !! i = Some r' /\
    closure_isListening r' = closure_isListening r.
Proof.
  intros Hr. destruct (exec_closures acts w) as [added E].
  assert (L : (closure_isListening <$> recognizers (exec_ acts w)) !! i
              = Some (closure_isListening r)).
  { rewrite E. apply lookup_app_l_Some. by rewrite list_lookup_fmap, Hr. }
  rewrite list_lookup_fmap in L.
  destruct (recognizers (exec_ acts w) !! i) as [r'|]; [|done].
  exists r'. split; [done|]. by injection L.
Qed.

Lemma first_closure_mount (store : gmap jsstring jsstring) :
  head (closure_isListening <$> recognizers (mount_ store))
  = if SpeechRecognition_available then Some false else None.
Proof.
  unfold mount.
  destruct (hydrate_keeps JSON_parse
              (render SpeechRecognition_available
                 {| state := initialState js_null; localStorage := store;
                    reads := 0; recognizers := []; recognition := None;
                    effects := [] |})) as (_ & _ & -> & _).
  unfold render. by destruct SpeechRecognition_available.
Qed.

Lemma first_closure_reachable
    (store : gmap jsstring jsstring) (acts : list Action) :
  head (closure_isListening <$> recognizers (exec_ acts (mount_ store)))
  = if SpeechRecognition_available then Some false else None.
Proof.
  apply (exec_invariant js_null JSON_stringify authService_login
           authService_register Date_now SpeechRecognition_available
           (fun w => head (closure_isListening <$> recognizers w)
                     = if SpeechRecognition_available then Some false else None));
    [|apply first_closure_mount].
  intros a w H. rewrite run_closures. revert H.
  destruct SpeechRecognition_available; intros H.
  - by rewrite head_app, H.
  - destruct (closure_isListening <$> recognizers w); [|done].
    by destruct a.
Qed.

(** X16. Unmounting stops nothing: in every reachable world, also one
    with a session in progress and [isListening] true, the cleanups leave
    the world as it is, because they read the [isListening] of the first
    render, which is false. *)
Theorem unmount_stops_nothing
    (store : gmap jsstring jsstring) (acts : list Action) :
  unmount store (exec_ acts (mount_ store)) = exec_ acts (mount_ store).
Proof.
  pose proof (first_closure_reachable store acts) as H.
  assert (C : cleanup (exec_ acts (mount_ store)) = exec_ acts (mount_ store)).
  { unfold cleanup. rewrite head_lookup, list_lookup_fmap in H.
    destruct (recognizers (exec_ acts (mount_ store)) !! 0) as [r|]; [|done].
    simpl in H. destruct SpeechRecognition_available; [|done].
    injection H as ->. done. }
  unfold unmount. destruct (hydration_guard store); by rewrite !C.
Qed.

(** ** Starting and stopping *)

(** X17. Right after a render in a browser with the capability,
    [startListening] returns normally: [isListening] is true, the
    transcript is empty, the history is kept, the recogniser that render
    built is started and the older ones are as they were. *)
Theorem startListening_after_render (w : World) :
  SpeechRecognition_available = true ->
  let w1 := render SpeechRecognition_available w in
  let w2 := world_of (startListening w1) in
  startListening w1 = Normal w2 /\
  isListening (state w2) = true /\
  transcript (state w2) = [] /\
  transcriptHistory (state w2) = transcriptHistory (state w) /\
  status_of (length (recognizers w)) w2 = Some Started /\
  (forall j, j < length (recognizers w) -> status_of j w2 = status_of j w).
Proof.
  intros Hav w1 w2.
  assert (R1 : recognizers w1
               = recognizers w
                 ++ [{| closure_isListening := isListening (state w);
                        status := Idle |}]).
  { subst w1. unfold render. by rewrite Hav. }
  assert (C1 : recognition w1 = Some (length (recognizers w))).
  { subst w1. unfold render. by rewrite Hav. }
  assert (H1 : transcriptHistory (state w1) = transcriptHistory (state w)).
  { subst w1. unfold render. by rewrite Hav. }
  set (w1' := update (setTranscript []) (update (setIsListening true) w1)).
  assert (S1 : status_of (length (recognizers w)) w1' = Some Idle).
  { unfold status_of. subst w1'. cbn [recognizers update]. rewrite R1.
    by rewrite list_lookup_middle. }
  assert (E : startListening w1
              = Normal (set_status (length (recognizers w)) Started w1')).
  { unfold startListening, rec_start. rewrite C1. fold w1'. by rewrite S1. }
  subst w2. rewrite E. cbn [world_of]. clearbody w1.
  split; [done|]. split; [done|]. split; [done|]. split; [exact H1|]. split.
  - rewrite status_of_set_status, decide_True by done. by rewrite S1.
  - intros j Hj. rewrite status_of_set_status, decide_False by lia.
    unfold status_of. subst w1'. cbn [recognizers update]. rewrite R1.
    by rewrite lookup_app_l.
Qed.

(** X18. With the capability, [stopListening] sets [isListening] to false
    and stops the recogniser of the latest render only: a started one is
    told to stop, one that is not started is left alone, and no
    recogniser of an earlier render is touched. *)
Theorem stopListening_current_only (c : nat) (w : World) :
  recognition w = Some c ->
  let w' := stopListening w in
  isListening (state w') = false /\
  status_of c w'
  = match status_of c w with
    | Some Started => Some Stopping
    | s => s
    end /\
  (forall j, j <> c -> status_of j w' = status_of j w).
Proof.
  intros Hc w'. subst w'. unfold stopListening, rec_stop. rewrite Hc.
  change (status_of c (update (setIsListening false) w))
    with (status_of c w).
  destruct (status_of c w) as [[]|] eqn:S0;
    (split; [done|]); split; try done.
  - rewrite status_of_set_status, decide_True by done.
    change (status_of c (update (setIsListening false) w))
      with (status_of c w). by rewrite S0.
  - intros j Hj. by rewrite status_of_set_status, decide_False.
Qed.

Lemma mount_recognizers (store : gmap jsstring jsstring) :
  SpeechRecognition_available = true ->
  recognizers (mount_ store)
  = [{| closure_isListening := false; status := Idle |}] /\
  recognition (mount_ store) = Some 0.
Proof.
  intros Hav. unfold mount.
  destruct (hydrate_keeps JSON_parse
              (render SpeechRecognition_available
                 {| state := initialState js_null; localStorage := store;
                    reads := 0; recognizers := []; recognition := None;
                    effects := [] |})) as (_ & _ & -> & -> & _).
  unfold render. by rewrite Hav.
Qed.

(** X19. Once a render has followed [startListening], [stopListening] no
    longer reaches the session that was started: after mounting, a call of
    [startListening], one or more renders and a call of [stopListening],
    [isListening] is false and the first recogniser is still started. *)
Theorem stop_after_render_leaves_session_running
    (store : gmap jsstring jsstring) (n : nat) :
  SpeechRecognition_available = true ->
  let w := exec_ (StartListening :: repeat Render (S n) ++ [StopListening])
                 (mount_ store) in
  isListening (state w) = false /\
  status_of 0 w = Some Started.
Proof.
  intros Hav w.
  destruct (mount_recognizers store Hav) as [Rm Cm].
  set (w1 := world_of (startListening (mount_ store))).
  assert (H1 : isListening (state w1) = true /\
               recognizers w1
               = {| closure_isListening := false; status := Started |}
                   :: repeat {| closure_isListening := true; status := Idle |} 0).
  { subst w1. unfold startListening, rec_start, status_of. rewrite Cm.
    cbn [recognizers update]. rewrite Rm. cbn. by rewrite Rm. }
  destruct H1 as [L1 R1].
  destruct (exec_renders js_null JSON_stringify authService_login
              authService_register Date_now SpeechRecognition_available
              n _ 0 w1 Hav L1 R1) as [L R].
  set (wn := exec_ (repeat Render n) w1) in *.
  assert (E : w = stopListening (render SpeechRecognition_available wn)).
  { subst w wn w1.
    change (StartListening :: repeat Render (S n) ++ [StopListening])
      with ([StartListening]
              ++ (Render :: repeat Render n) ++ [StopListening]).
    rewrite repeat_cons, !exec_app. reflexivity. }
  clearbody wn. clear L1 R1. clearbody w1. rewrite E. clear E w.
  unfold stopListening, rec_stop, render. rewrite Hav.
  cbn [recognition recognizers update status_of state].
  unfold status_of. cbn [recognizers update]. rewrite R.
  rewrite list_lookup_middle by done. by cbn.
Qed.

(** ** Caption style *)

(** X20. Partial styles compose: merging [p] and then [q] is merging the
    partial that takes each field from [q] when [q] has it and from [p]
    otherwise; hence merging the same partial twice is merging it once,
    and merging the empty partial changes nothing. *)
Theorem updateCaptionStyle_composes (p q : PartialCaptionStyle) (w : World) :
  updateCaptionStyle q (updateCaptionStyle p w)
  = updateCaptionStyle
      {| fontSize_opt := fontSize_opt q ∪ fontSize_opt p;
         color_opt := color_opt q ∪ color_opt p |} w /\
  updateCaptionStyle p (updateCaptionStyle p w) = updateCaptionStyle p w /\
  updateCaptionStyle {| fontSize_opt := None; color_opt := None |} w = w.
Proof.
  repeat split.
  - by destruct p as [[?|] [?|]], q as [[?|] [?|]].
  - by destruct p as [[?|] [?|]].
  - by destruct w as [[? ? ? ? ? []] ? ? ? ? ?].
Qed.

End CaptionFacts.

(** ** The further properties in the example browser *)

Local Abbreviation runB service clock capability :=
  (run JNull stringify service no_registration clock capability).

(** A stored token with the serialised user [ada]. *)
Lemma mount_valid_installs_session_witness :
  let store : gmap jsstring jsstring :=
    <[key_token := lit "abc"]> (<[key_user := stringify ada]> ∅) in
  let w := mountB true store in
  token (state w) = Some (lit "abc") /\
  user (state w) = ada /\
  isAuthenticated (state w) = true /\
  localStorage w = store /\
  effects w = [].
Proof.
  intros store.
  apply (mount_valid_installs_session JNull parse true store
           (lit "abc") (stringify ada) ada);
    [vm_compute; reflexivity | vm_compute; reflexivity | reflexivity
    | reflexivity | discriminate | vm_compute; reflexivity].
Defined.

(** A stored token with the stored user "undefined". *)
Lemma mount_skips_hydration_witness :
  let store : gmap jsstring jsstring :=
    <[key_token := lit "abc"]> (<[key_user := lit "undefined"]> ∅) in
  let w := mountB true store in
  state w = initialState JNull /\
  localStorage w = store /\
  effects w = [].
Proof.
  intros store.
  apply (mount_skips_hydration JNull parse true store).
  right. right. vm_compute. reflexivity.
Defined.

(** A registration the service accepts, and one it rejects. *)
Lemma register_installs_session_witness :
  let userData :=
    {| firstName := lit "Ada"; lastName := lit "Lovelace";
       email := lit "ada@example.com"; password := lit "secret" |} in
  let accept (_ : RegisterData) : jsstring + (jsstring * json) :=
    inr (lit "tok-2", ada) in
  let w := mountB true ∅ in
  (exists w',
      register stringify accept userData w = inr w' /\
      token (state w') = Some (lit "tok-2") /\
      user (state w') = ada /\
      localStorage w' !! key_token = Some (lit "tok-2") /\
      localStorage w' !! key_user = Some (stringify ada)) /\
  register stringify no_registration userData w
  = inl (lit "Registration closed").
Proof.
  intros userData accept w. split.
  - apply (proj1 (register_installs_session stringify accept userData w)).
    reflexivity.
  - apply (proj2 (register_installs_session stringify no_registration
                    userData w)).
    reflexivity.
Defined.

(** Logging out of a world whose store also holds a 'theme' key. *)
Lemma logout_clears_session_witness :
  let store : gmap jsstring jsstring :=
    <[lit "theme" := lit "dark"]>
      (<[key_token := lit "abc"]> (<[key_user := stringify ada]> ∅)) in
  let w' := logout JNull (mountB true store) in
  localStorage w' !! lit "theme" = Some (lit "dark").
Proof.
  intros store w'.
  destruct (logout_clears_session JNull (mountB true store))
    as (_ & _ & _ & _ & _ & K & _).
  subst w'. rewrite (K (lit "theme")); [|discriminate|discriminate].
  vm_compute. reflexivity.
Defined.

(** Logging in and out again. *)
Lemma login_then_logout_witness :
  let w := mountB true ∅ in
  logout JNull (install stringify (lit "tok-1") ada w) = logout JNull w.
Proof.
  intros w.
  apply (login_then_logout JNull stringify one_account
           (lit "ada@example.com") (lit "secret") w).
  reflexivity.
Defined.

(** Logging in and mounting again on the store that is left. *)
Lemma login_then_reload_witness :
  let w := mountB true ∅ in
  let w' := install stringify (lit "tok-1") ada w in
  let w2 := mountB true (localStorage w') in
  token (state w2) = Some (lit "tok-1") /\
  user (state w2) = ada /\
  isAuthenticated (state w2) = true.
Proof.
  intros w w'.
  apply (login_then_reload JNull parse stringify one_account true
           (lit "ada@example.com") (lit "secret") (lit "tok-1") ada w w');
    [reflexivity | reflexivity | reflexivity | reflexivity | discriminate
    | vm_compute; reflexivity].
Defined.

(** An event whose index is past its only result. *)
Lemma onresult_transcript_and_history_witness :
  let event :=
    {| resultIndex := 1;
       results := [{| isFinal := true; best := lit "hello" |}] |} in
  let w := mountB true ∅ in
  onresult ticking event w = update (setTranscript []) w.
Proof.
  intros event w.
  apply (proj2 (onresult_transcript_and_history ticking event w)).
  simpl. lia.
Defined.

(** An event with two interim results. *)
Lemma onresult_interim_only_witness :
  let event :=
    {| resultIndex := 0;
       results := [{| isFinal := false; best := lit "hel" |};
                   {| isFinal := false; best := lit "lo" |}] |} in
  let w := mountB true ∅ in
  onresult ticking event w = update (setTranscript (lit "hello")) w.
Proof.
  intros event w.
  apply (onresult_interim_only ticking event w).
  repeat constructor.
Defined.

(** A login leaves a 'theme' key of the store alone. *)
Lemma run_session_frame_witness :
  let store : gmap jsstring jsstring := <[lit "theme" := lit "dark"]> ∅ in
  let w := mountB true store in
  let w' := runB one_account ticking true
              (Login (lit "ada@example.com") (lit "secret")) w in
  localStorage w' !! lit "theme" = localStorage w !! lit "theme".
Proof.
  intros store w w'.
  apply (proj2 (run_session_frame JNull stringify one_account
                  no_registration ticking true
                  (Login (lit "ada@example.com") (lit "secret")) w));
    discriminate.
Defined.

(** The end of the session of the recogniser of the first render, and of
    one that a later render built while [isListening] was true. *)
Lemma end_event_follows_captured_flag_witness :
  let w := execB one_account ticking true
             [StartListening; Render; EndEvent 0; StartListening;
              StopListening]
             (mountB true ∅) in
  let w' := runB one_account ticking true (EndEvent 1) w in
  isListening (state w) = false /\
  status_of 1 w' = Some Started /\
  (forall j, j <> 1 -> status_of j w' = status_of j w) /\
  state w' = state w.
Proof.
  intros w w'. split; [reflexivity|].
  apply (end_event_follows_captured_flag JNull stringify one_account
           no_registration ticking true 1
           {| closure_isListening := true; status := Stopping |} w);
    reflexivity.
Defined.

(** The recogniser of the first render, after a start and two renders. *)
Lemma recogniser_keeps_captured_flag_witness :
  let w := mountB true ∅ in
  exists r',
    recognizers (execB one_account ticking true
                   [StartListening; Render; Render] w) !! 0 = Some r' /\
    closure_isListening r' = false.
Proof.
  intros w.
  apply (recogniser_keeps_captured_flag JNull stringify one_account
           no_registration ticking true [StartListening; Render; Render] w 0
           {| closure_isListening := false; status := Idle |}).
  reflexivity.
Defined.

(** A start right after a render of the mounted provider. *)
Lemma startListening_after_render_witness :
  let w := mountB true ∅ in
  let w1 := render true w in
  let w2 := world_of (startListening w1) in
  startListening w1 = Normal w2 /\
  isListening (state w2) = true /\
  transcript (state w2) = [] /\
  transcriptHistory (state w2) = transcriptHistory (state w) /\
  status_of (length (recognizers w)) w2 = Some Started /\
  (forall j, j < length (recognizers w) -> status_of j w2 = status_of j w).
Proof.
  intros w. apply (startListening_after_render true w). reflexivity.
Defined.

(** A stop right after a start, with no render between. *)
Lemma stopListening_current_only_witness :
  let w := execB one_account ticking true [StartListening] (mountB true ∅) in
  let w' := stopListening w in
  isListening (state w') = false /\
  status_of 0 w' = Some Stopping /\
  (forall j, j <> 0 -> status_of j w' = status_of j w).
Proof.
  intros w. apply (stopListening_current_only 0 w). reflexivity.
Defined.

(** Mount, start, one render, stop. *)
Lemma stop_after_render_leaves_session_running_witness :
  let w := execB one_account ticking true
             [StartListening; Render; StopListening] (mountB true ∅) in
  isListening (state w) = false /\
  status_of 0 w = Some Started.
Proof.
  apply (stop_after_render_leaves_session_running JNull parse stringify
           one_account no_registration ticking true ∅ 0).
  reflexivity.
Defined.

(** * Where the entries of the history come from *)

Section HistoryProvenance.

Context {JSValue : Type} (js_null : JSValue).
Context (JSON_parse : jsstring -> option JSValue).
Context (JSON_stringify : JSValue -> jsstring).
Context {AuthError : Type}.
Context (authService_login :
           jsstring -> jsstring -> AuthError + (jsstring * JSValue)).
Context (authService_register :
           RegisterData -> AuthError + (jsstring * JSValue)).
Context (Date_now : nat -> Z).
Context (SpeechRecognition_available : bool).

Local Abbreviation World := (@World JSValue).
Local Abbreviation mount_ := (mount js_null JSON_parse SpeechRecognition_available).
Local Abbreviation run_ :=
  (run js_null JSON_stringify authService_login authService_register
       Date_now SpeechRecognition_available).
Local Abbreviation exec_ :=
  (exec js_null JSON_stringify authService_login authService_register
        Date_now SpeechRecognition_available).
Local Abbreviation accepted_ :=
  (accepted js_null JSON_stringify authService_login authService_register
            Date_now SpeechRecognition_available).

#[local] Set Warnings "-inconsistent-scopes".

(** The clock was read once for each text of [log]; no text of [log] is
    all white space; the history is, newest first and cut at 50, the
    entries that the texts of [log] from some position on give when the
    [j]-th text takes the [j]-th clock reading; so every entry of the
    history holds the [j]-th text of [log], as it is, with the [j]-th
    clock reading, for some [j]. *)
Local Abbreviation logged log w :=
  (reads w = length log /\
   Forall (fun t : jsstring => blank t = false) log /\
   (exists c, c <= length log /\
              transcriptHistory (state w)
              = take 50 (rev (drop c (stamped Date_now 0 log)))) /\
   Forall (fun e => exists j, log !! j = Some (text e) /\
                              id e = toString (Date_now j))
          (transcriptHistory (state w))).

Lemma stamped_app (k : nat) (l l' : list jsstring) :
  stamped Date_now k (l ++ l')
  = stamped Date_now k l ++ stamped Date_now (k + length l) l'.
Proof.
  revert k. induction l as [|t l IH]; intros k; simpl.
  - by rewrite Nat.add_0_r.
  - rewrite IH. do 3 f_equal. lia.
Qed.

Lemma logged_frame (log : list jsstring) (w w' : World) :
  transcriptHistory (state w') = transcriptHistory (state w) ->
  reads w' = reads w ->
  logged log w -> logged log w'.
Proof. intros -> ->. done. Qed.

Lemma addToHistory_logged (log : list jsstring) (t : jsstring) (w : World) :
  logged log w ->
  logged (log ++ filter (fun t => blank t = false) [t])
         (addToHistory Date_now t w).
Proof.
  intros (R & B & (c & Hc & E) & F). destruct (blank t) eqn:Bt.
  - rewrite filter_cons, decide_False, filter_nil, app_nil_r by congruence.
    unfold addToHistory. rewrite truthy_trim_blank, Bt.
    split; [exact R|]. split; [exact B|]. split; [by exists c | exact F].
  - rewrite filter_cons, decide_True, filter_nil by done.
    rewrite (addToHistory_nonblank Date_now t w Bt).
    cbn [state update tick setTranscriptHistory transcriptHistory reads].
    split; [rewrite length_app; simpl; lia|].
    split; [apply Forall_app; split; [exact B | by constructor]|].
    split.
    + exists c. split; [rewrite length_app; lia|].
      rewrite stamped_app, drop_app_le by (by rewrite length_stamped).
      rewrite rev_app_distr, E, R. cbn [stamped rev app Nat.add].
      apply (take_app_take 50
               [{| id := toString (Date_now (length log)); text := t |}]).
    + apply Forall_take. constructor.
      * exists (reads w). cbn [id text]. split; [|done].
        rewrite R. by rewrite list_lookup_middle.
      * eapply Forall_impl; [exact F|]. intros e (j & Hj & Hid).
        exists j. split; [by apply lookup_app_l_Some | exact Hid].
Qed.

Lemma appendAll_logged (texts log : list jsstring) (w : World) :
  logged log w ->
  logged (log ++ filter (fun t => blank t = false) texts)
         (appendAll Date_now texts w).
Proof.
  revert log w. induction texts as [|t ts IH]; intros log w H.
  - rewrite filter_nil, app_nil_r. exact H.
  - assert (E : filter (fun t => blank t = false) (t :: ts)
                = filter (fun t => blank t = false) [t]
                  ++ filter (fun t => blank t = false) ts)
      by (by rewrite <- filter_app).
    rewrite E, app_assoc, appendAll_cons.
    apply IH. by apply addToHistory_logged.
Qed.

Lemma onresult_logged
    (event : SpeechRecognitionEvent) (log : list jsstring) (w : World) :
  logged log w ->
  logged (log ++ accepted_of event) (onresult Date_now event w).
Proof.
  intros H. rewrite onresult_eq. unfold accepted_of.
  apply (appendAll_logged
           (map best (filter (fun r => isFinal r = true)
                        (drop (resultIndex event) (results event))))
           log w H).
Qed.

Lemma run_logged (a : Action) (log : list jsstring) (w : World) :
  logged log w ->
  logged (log ++ match a with
                 | ResultEvent i event =>
                     if in_session i w then accepted_of event else []
                 | _ => []
                 end)
         (run_ a w).
Proof.
  intros H. destruct a; cbn [run]; rewrite ?app_nil_r.
  - apply (logged_frame log w); [| |exact H];
      unfold render; by destruct SpeechRecognition_available.
  - apply (logged_frame log w); [| |exact H]; apply startListening_keeps.
  - apply (logged_frame log w); [| |exact H]; apply stopListening_keeps.
  - destruct H as (R & B & _ & _).
    split; [exact R|]. split; [exact B|]. split; [|by constructor].
    exists (length log). split; [done|]. cbn [clearHistory state update
      setTranscriptHistory transcriptHistory].
    rewrite <- (length_stamped Date_now 0 log) at 1. by rewrite drop_all.
  - by apply (logged_frame log w).
  - unfold login. destruct (authService_login _ _) as [?|[? ?]];
      [exact H | by apply (logged_frame log w)].
  - unfold register. destruct (authService_register _) as [?|[? ?]];
      [exact H | by apply (logged_frame log w)].
  - by apply (logged_frame log w).
  - destruct (in_session i w);
      [by apply onresult_logged | by rewrite app_nil_r].
  - destruct (in_session i w); [|exact H].
    apply (logged_frame log w); [| |exact H]; unfold onerror; by case_match.
  - destruct (in_session i w); [|exact H].
    apply (logged_frame log (set_status i Idle w));
      [| |by apply (logged_frame log w)]; apply onend_keeps.
Qed.

Lemma exec_logged (acts : list Action) (log : list jsstring) (w : World) :
  logged log w -> logged (log ++ accepted_ acts w) (exec_ acts w).
Proof.
  revert log w. induction acts as [|a acts IH]; intros log w H.
  - simpl. by rewrite app_nil_r.
  - cbn [accepted exec fold_left]. rewrite app_assoc.
    apply (IH _ (run_ a w)). by apply run_logged.
Qed.

Lemma mount_logged (store : gmap jsstring jsstring) :
  logged (@nil jsstring) (mount_ store).
Proof.
  unfold mount.
  destruct (hydrate_keeps JSON_parse
              (render SpeechRecognition_available
                 {| state := initialState js_null; localStorage := store;
                    reads := 0; recognizers := []; recognition := None;
                    effects := [] |})) as (-> & -> & _).
  unfold render.
  destruct SpeechRecognition_available;
    (split; [done|]; split; [done|]; split; [by exists 0 | done]).
Qed.

(** C3, amended. Let [texts] be the texts that [addToHistory] accepted
    since the provider was mounted, in order: the best transcripts of the
    final results delivered that are not all white space, exactly as the
    events carried them. In every reachable world the clock has been read
    once per accepted text, and the history is, newest first and cut at
    50, the accepted texts from some position on (the last
    [clearHistory]), each stored as received with the clock reading of
    its own append: the [j]-th accepted text with the decimal form of the
    [j]-th reading as its id. So every entry of the history has a text
    that is not empty and not all white space, equal to the accepted text
    it came from, and the id its own append read. (Nothing makes two
    readings differ: ids may repeat.) *)
Theorem history_entries_nonblank_stamped
    (store : gmap jsstring jsstring) (acts : list Action) :
  let w := exec_ acts (mount_ store) in
  let texts := accepted_ acts (mount_ store) in
  reads w = length texts /\
  (exists c,
      c <= length texts /\
      transcriptHistory (state w)
      = take 50 (rev (drop c (stamped Date_now 0 texts)))) /\
  forall e,
    In e (transcriptHistory (state w)) ->
    exists j,
      j < reads w /\
      texts !! j = Some (text e) /\
      id e = toString (Date_now j) /\
      text e <> [] /\
      truthy (trim (text e)) = true.
Proof.
  intros w texts.
  destruct (exec_logged acts [] (mount_ store) (mount_logged store))
    as (R & B & C & F).
  rewrite app_nil_l in R, B, C. fold w in R, C, F. fold texts in R, B, C.
  split; [exact R|]. split; [exact C|]. intros e Hin.
  rewrite List.Forall_forall in F. destruct (F e Hin) as (j & Hj & Hid).
  assert (Bt : blank (text e) = false).
  { rewrite List.Forall_forall in B. apply B.
    apply list_elem_of_In, list_elem_of_lookup. by exists j. }
  exists j. repeat split; try done.
  - rewrite R. by apply lookup_lt_Some in Hj.
  - intros E. rewrite E in Bt. discriminate.
  - by rewrite truthy_trim_blank, Bt.
Qed.

End HistoryProvenance.

(** A final result with a leading space after a blank one and an interim
    one: its entry holds the text as the event carried it and the first
    clock reading. *)
Lemma history_entries_nonblank_stamped_witness :
  let event :=
    {| resultIndex := 0;
       results := [{| isFinal := true; best := lit "  " |};
                   {| isFinal := false; best := lit "h" |};
                   {| isFinal := true; best := lit " hi" |}] |} in
  let acts := [StartListening; ResultEvent 0 event] in
  let e := {| id := lit "1700000000000"; text := lit " hi" |} in
  let w := execB one_account ticking true acts (mountB true ∅) in
  let texts := accepted JNull stringify one_account no_registration ticking
                 true acts (mountB true ∅) in
  texts = [lit " hi"] /\
  transcriptHistory (state w) = [e] /\
  exists j,
    j < reads w /\
    texts !! j = Some (text e) /\
    id e = toString (ticking j) /\
    text e <> [] /\
    truthy (trim (text e)) = true.
Proof.
  intros event acts e w texts. split; [vm_compute; reflexivity|].
  split; [vm_compute; reflexivity|].
  apply (proj2 (proj2 (history_entries_nonblank_stamped JNull parse stringify
                         one_account no_registration ticking true ∅ acts)) e).
  vm_compute. left. reflexivity.
Defined.
